(** * Alphabet Alchemist: the [MeasurementConverter] decoder of [main.py]

    A shallow embedding of [MeasurementConverter._val],
    [MeasurementConverter._parse_element] and [MeasurementConverter.convert],
    and the properties of the decoder stated in the specification.

    Data model.
    - A Python [str] is a [list ascii]: the sequence of its code points.
      The embedding covers the code points 0..255 (Latin-1), on which
      [str.strip] and [str.lower] stay inside the range.  Beyond that range
      [str.lower] can lengthen a string, so nothing below compares the
      length of the normalised stream with the length of the input: the
      bounds of a run are stated on the stream, the [s] of the source after
      [s = s.strip().lower()], whose length is the source's [n].
    - Python integers are unbounded: values, counts and sums are [Z].
    - The cursor [i] of the source starts at 0 and is only ever incremented,
      so it is a [nat].
    - [s[i]] is the list lookup [nth_error s i]; the source guards every
      subscript by [i < len(s)], and the lookup answers [None] exactly when
      that guard fails, so a guard and the subscript under it are one
      [match] on the lookup.
    - A [while] loop is a function of the loop's state, defined by
      well-founded recursion on the number of characters after the cursor,
      [len(s) - i].
    - The main loop also threads a ghost log of the cursor's moves, from
      which nothing is computed: the properties about a whole run (how many
      count reads, in which order the cursor moved) are stated on it. *)

From Stdlib Require Import Ascii String List ZArith Bool Arith Lia.
From Equations Require Import Equations.
Import ListNotations.

Local Open Scope Z_scope.

(** ** Python strings *)

Definition str := list ascii.

(** A string literal as a [str]. *)
Definition py (s : string) : str := list_ascii_of_string s.

(** [ord(ch)]. *)
Definition ord (ch : ascii) : Z := Z.of_nat (nat_of_ascii ch).

(** [chr(n)], for [0 <= n < 256]. *)
Definition chr (n : Z) : ascii := ascii_of_nat (Z.to_nat n).

(** [ch.isspace()] on Latin-1: the characters [str.strip()] removes. *)
Definition isspace (ch : ascii) : bool :=
  let n := ord ch in
  ((9 <=? n) && (n <=? 13)) || ((28 <=? n) && (n <=? 32))
  || (n =? 133) || (n =? 160).

(** [ch.lower()] on Latin-1: [A-Z] and the accented capitals 192..222
    (the multiplication sign 215 apart) move up by 32. *)
Definition lower_char (ch : ascii) : ascii :=
  let n := ord ch in
  if ((65 <=? n) && (n <=? 90))
     || ((192 <=? n) && (n <=? 222) && negb (n =? 215))
  then chr (n + 32) else ch.

(** [ch.upper()] on Latin-1, where the result is again a Latin-1 character:
    [a-z] and the accented small letters 224..254 (the division sign 247
    apart) move down by 32.  The three characters whose upper-case form
    leaves the range (181, 223 and 255) are outside this embedding and are
    left as they are. *)
Definition upper_char (ch : ascii) : ascii :=
  let n := ord ch in
  if ((97 <=? n) && (n <=? 122))
     || ((224 <=? n) && (n <=? 254) && negb (n =? 247))
  then chr (n - 32) else ch.

Definition lower (s : str) : str := map lower_char s.
Definition upper (s : str) : str := map upper_char s.

Fixpoint lstrip (s : str) : str :=
  match s with
  | [] => []
  | ch :: rest => if isspace ch then lstrip rest else s
  end.

Fixpoint rstrip (s : str) : str :=
  match s with
  | [] => []
  | ch :: rest =>
      match rstrip rest with
      | [] => if isspace ch then [] else [ch]
      | rest' => ch :: rest'
      end
  end.

(** [s.strip()]. *)
Definition strip (s : str) : str := rstrip (lstrip s).

(** ** The alphabet of the encoding *)

Definition is_lowercase (ch : ascii) : bool :=
  (ord "a"%char <=? ord ch) && (ord ch <=? ord "z"%char).

(** A lowercase letter or the sentinel. *)
Definition in_alphabet (ch : ascii) : bool :=
  is_lowercase ch || Ascii.eqb ch "_"%char.

(** A string over [{a-z, _}]. *)
Definition over_alphabet (s : str) : Prop := forallb in_alphabet s = true.

(** A string of whitespace only. *)
Definition blank (s : str) : Prop := forallb isspace s = true.

(** ** The converter *)

(** [_val]:
<<
    if ch == "_": return 0
    return ord(ch) - ord('a') + 1
>> *)
Definition _val (ch : ascii) : Z :=
  if Ascii.eqb ch "_"%char then 0 else ord ch - ord "a"%char + 1.

(** A value together with the equation that it is the value of [x]: the
    loops below test a condition and need it again to justify that the
    cursor moved. *)
Definition inspect {A : Type} (x : A) : {y : A | x = y} := exist _ x eq_refl.

(** The z-group loop of [_parse_element]:
<<
    while i < len(s) and s[i] == 'z':
        total += 26
        i += 1
>>
    from the state [(total, i)] to the state the loop leaves. *)
Equations? z_loop (s : str) (total : Z) (i : nat) : Z * nat
  by wf (length s - i)%nat lt :=
z_loop s total i with inspect (nth_error s i) := {
  | exist _ None _ => (total, i);
  | exist _ (Some ch) Hch with Ascii.eqb ch "z"%char := {
      | true => z_loop s (total + 26) (i + 1);
      | false => (total, i) } }.
Proof.
  assert (i < length s)%nat by (apply nth_error_Some; congruence). lia.
Qed.

(** [_parse_element]:
<<
    if i >= len(s):
        return 0, i
    if s[i] != 'z':
        return self._val(s[i]), i + 1
    total = 0
    while i < len(s) and s[i] == 'z': ...
    if i < len(s):
        total += self._val(s[i])
        i += 1
    return total, i
>>
    The first lookup answers [None] when [i >= len(s)]; the second one
    answers [Some ch'] when [i < len(s)] after the loop. *)
Definition _parse_element (s : str) (i : nat) : Z * nat :=
  match nth_error s i with
  | None => (0, i)
  | Some ch =>
      if negb (Ascii.eqb ch "z"%char) then (_val ch, (i + 1)%nat)
      else
        let '(total, i) := z_loop s 0 i in
        match nth_error s i with
        | Some ch' => (total + _val ch', (i + 1)%nat)
        | None => (total, i)
        end
  end.

(** The scanner moves the cursor forward by at least one character when
    one is left, and never past the end of the stream: what makes the two
    loops of [convert] stop. *)

Lemma nth_error_in_range (s : str) (i : nat) (ch : ascii) :
  nth_error s i = Some ch -> (i < length s)%nat.
Proof. intros H. apply nth_error_Some. congruence. Qed.

Lemma z_loop_eq (s : str) (total : Z) (i : nat) :
  z_loop s total i =
  match nth_error s i with
  | Some ch => if Ascii.eqb ch "z"%char then z_loop s (total + 26) (i + 1)
               else (total, i)
  | None => (total, i)
  end.
Proof.
  funelim (z_loop s total i);
    repeat match goal with
           | E : nth_error s i = _ |- context [nth_error s i] => rewrite E
           | E : Ascii.eqb ?c _ = _ |- context [Ascii.eqb ?c _] => rewrite E
           end; reflexivity.
Qed.

Lemma z_loop_cursor (s : str) (total : Z) (i : nat) :
  (i <= length s)%nat ->
  (i <= snd (z_loop s total i) <= length s)%nat.
Proof.
  funelim (z_loop s total i); simpl; intros Hi; try lia.
  assert (i < length s)%nat by eauto using nth_error_in_range.
  match goal with IH : _ -> (_ <= snd (z_loop _ _ _) <= _)%nat |- _ =>
    specialize (IH ltac:(lia)) end.
  lia.
Qed.

Lemma parse_element_cursor (s : str) (i : nat) :
  (i < length s)%nat ->
  (i < snd (_parse_element s i) <= length s)%nat.
Proof.
  intros Hi. unfold _parse_element.
  destruct (nth_error s i) as [ch|] eqn:Hch.
  2:{ apply nth_error_None in Hch. lia. }
  destruct (Ascii.eqb ch "z"%char) eqn:Hz; simpl; [|lia].
  rewrite z_loop_eq, Hch, Hz.
  pose proof (z_loop_cursor s (0 + 26) (i + 1) ltac:(lia)) as Hc.
  destruct (z_loop s (0 + 26) (i + 1)) as [total j]; simpl in *.
  destruct (nth_error s j) eqn:Hj; simpl.
  - apply nth_error_in_range in Hj. lia.
  - lia.
Qed.

(** Ghost state of a run: what the decoder did to the cursor, in order.
    Nothing is ever read from the log; it only records
    - [Shortcut i]: the sentinel branch moved the cursor from [i] to [i + 1];
    - [CountRead i count j]: [count, i = self._parse_element(s, i)] moved
      the cursor from [i] to [j];
    - [ValueRead i val j]: [val, i = self._parse_element(s, i)] moved the
      cursor from [i] to [j]. *)
Inductive event : Type :=
| Shortcut (i : nat)
| CountRead (i : nat) (count : Z) (j : nat)
| ValueRead (i : nat) (val : Z) (j : nat).

(** The value loop of [convert]:
<<
    while read < count and i < n:
        val, i = self._parse_element(s, i)
        package_sum += val
        read += 1
>>
    from the state [(package_sum, read, i)] to the [package_sum] and the
    cursor the loop leaves ([n] is [len(s)]). *)
Equations? values_loop (s : str) (count package_sum read : Z) (i : nat)
    (log : list event) : Z * nat * list event
  by wf (length s - i)%nat lt :=
values_loop s count package_sum read i log
  with inspect ((read <? count) && (i <? length s)%nat) := {
  | exist _ false _ => (package_sum, i, log);
  | exist _ true Hcond with inspect (_parse_element s i) := {
      | exist _ (val, j) Hscan =>
          values_loop s count (package_sum + val) (read + 1) j
                      (log ++ [ValueRead i val j]) } }.
Proof.
  apply andb_prop in Hcond as [_ Hi]. apply Nat.ltb_lt in Hi.
  pose proof (parse_element_cursor s i Hi) as Hj.
  rewrite Hscan in Hj. simpl in Hj. lia.
Qed.

Lemma values_loop_cursor (s : str) (count package_sum read : Z) (i : nat)
    (log : list event) :
  (i <= snd (fst (values_loop s count package_sum read i log)))%nat.
Proof.
  funelim (values_loop s count package_sum read i log); simpl; [lia|].
  pose proof Hcond as Hi.
  apply andb_prop in Hi as [_ Hi]. apply Nat.ltb_lt in Hi.
  pose proof (parse_element_cursor s i Hi) as Hj.
  rewrite Hscan in Hj. simpl in Hj. lia.
Qed.

(** What a run of the main loop leaves: the cursor, the [result] list and
    the ghost log. *)
Record run : Type := Run {
  final_cursor : nat;
  final_result : list Z;
  final_log : list event
}.

(** The main loop of [convert], from the state [(i, result)]:
<<
    while i < n:
        if s[i] == "_":
            result.append(0)
            i += 1
            continue
        count, i = self._parse_element(s, i)
        if count == 0:
            result.append(0)
            continue
        package_sum = 0
        read = 0
        while read < count and i < n: ...
        result.append(package_sum)
>>
    The lookup answers [None] when the guard [i < n] fails, [n] being
    [len(s)]; the log grows by one event at each assignment to [i]. *)
Equations? convert_loop (s : str) (i : nat) (result : list Z)
    (log : list event) : run
  by wf (length s - i)%nat lt :=
convert_loop s i result log with inspect (nth_error s i) := {
  | exist _ None _ => Run i result log;
  | exist _ (Some ch) Hch with Ascii.eqb ch "_"%char := {
      | true => convert_loop s (i + 1) (result ++ [0]) (log ++ [Shortcut i]);
      | false with inspect (_parse_element s i) := {
          | exist _ (count, j) Hscan with count =? 0 := {
              | true => convert_loop s j (result ++ [0])
                                     (log ++ [CountRead i count j]);
              | false with inspect (values_loop s count 0 0 j
                                      (log ++ [CountRead i count j])) := {
                  | exist _ (package_sum, k, log') Hvalues =>
                      convert_loop s k (result ++ [package_sum]) log' } } } } }.
Proof.
  all: apply nth_error_in_range in Hch.
  all: try (pose proof (parse_element_cursor s i Hch) as Hj;
            rewrite Hscan in Hj; simpl in Hj).
  - lia.
  - lia.
  - pose proof (values_loop_cursor s count 0 0 j
                  (log ++ [CountRead i count j])) as Hk.
    rewrite Hvalues in Hk. simpl in Hk. lia.
Qed.

(** [convert]:
<<
    s = s.strip().lower()
    i = 0
    n = len(s)
    result = []
    while i < n: ...
    return result
>>
    [convert_run] keeps the final cursor and the ghost log as well. *)
Definition convert_run (s : str) : run :=
  let s := lower (strip s) in
  convert_loop s 0 [] [].

Definition convert (s : str) : list Z := final_result (convert_run s).

(** ** Reading the ghost log *)

(** The cursor before and after an event. *)
Definition moves (e : event) : nat * nat :=
  match e with
  | Shortcut i => (i, (i + 1)%nat)
  | CountRead i _ j => (i, j)
  | ValueRead i _ j => (i, j)
  end.

(** [reads_of s e]: what the event [e] read is what the stream [s] holds
    at the event's cursor. *)
Definition reads_of (s : str) (e : event) : Prop :=
  match e with
  | Shortcut i => nth_error s i = Some "_"%char
  | CountRead i count j => _parse_element s i = (count, j)
  | ValueRead i val j => _parse_element s i = (val, j)
  end.

(** The events that start a package: every pass through the main loop's
    body starts with one of them and appends one integer to [result]. *)
Definition opens_package (e : event) : bool :=
  match e with
  | Shortcut _ | CountRead _ _ _ => true
  | ValueRead _ _ _ => false
  end.

Definition packages (log : list event) : nat :=
  length (filter opens_package log).

(** The scanner calls that read a count. *)
Definition is_count_read (e : event) : bool :=
  match e with
  | CountRead _ _ _ => true
  | _ => false
  end.

Definition count_reads (log : list event) : nat :=
  length (filter is_count_read log).

(** [cursor_path n a log b]: the events of [log] move the cursor from [a]
    to [b], each starting where the one before ended, none moving it
    backwards and none past [n]. *)
Inductive cursor_path (n : nat) (a : nat) : list event -> nat -> Prop :=
| path_start : cursor_path n a [] a
| path_step (log : list event) (b : nat) (e : event) (c : nat) :
    cursor_path n a log b ->
    moves e = (b, c) -> (b <= c <= n)%nat ->
    cursor_path n a (log ++ [e]) c.

(** ** The decoder as the specification words it

    The two definitions of this section follow the specification's
    algorithm (section 4.2), not the source: they are what [convert] is
    compared with. *)

(** Step 4: read up to [count] further elements from the cursor [i],
    stopping early when the stream is exhausted; the sum of the elements
    read (0 when none is) and the cursor after them. *)
Fixpoint read_values (s : str) (count : nat) (i : nat) : Z * nat :=
  match count with
  | O => (0, i)
  | S count' =>
      if (i <? length s)%nat then
        let '(val, j) := _parse_element s i in
        let '(sum, k) := read_values s count' j in
        (val + sum, k)
      else (0, i)
  end.

(** [decodes s i out]: from the cursor [i] on, the algorithm produces the
    packages [out], in the order it meets them.
    - The loop ends when the cursor reaches the length of the stream.
    - Step 1: on the sentinel, a zero package, and the cursor moves by one.
    - Steps 2 and 3: otherwise one element is scanned as the count; a count
      of 0 gives a zero package.
    - Step 4: any other count gives the sum of up to [count] further
      elements as one package. *)
Inductive decodes (s : str) : nat -> list Z -> Prop :=
| decodes_end (i : nat) :
    i = length s ->
    decodes s i []
| decodes_sentinel (i : nat) (out : list Z) :
    nth_error s i = Some "_"%char ->
    decodes s (i + 1) out ->
    decodes s i (0 :: out)
| decodes_zero (i : nat) (ch : ascii) (j : nat) (out : list Z) :
    nth_error s i = Some ch -> ch <> "_"%char ->
    _parse_element s i = (0, j) ->
    decodes s j out ->
    decodes s i (0 :: out)
| decodes_group (i : nat) (ch : ascii) (count : Z) (j : nat)
    (sum : Z) (k : nat) (out : list Z) :
    nth_error s i = Some ch -> ch <> "_"%char ->
    _parse_element s i = (count, j) -> count <> 0 ->
    read_values s (Z.to_nat count) j = (sum, k) ->
    decodes s k out ->
    decodes s i (sum :: out).

(** ** The decoder without the sentinel shortcut

    The variant the specification allows (sections 4.2 and 9): the main
    loop of [convert] with its first branch removed, so that a sentinel is
    scanned as a count like any other character. *)
Equations? unified_loop (s : str) (i : nat) (result : list Z) : list Z
  by wf (length s - i)%nat lt :=
unified_loop s i result with inspect (nth_error s i) := {
  | exist _ None _ => result;
  | exist _ (Some ch) Hch with inspect (_parse_element s i) := {
      | exist _ (count, j) Hscan with count =? 0 := {
          | true => unified_loop s j (result ++ [0]);
          | false with inspect (values_loop s count 0 0 j []) := {
              | exist _ (package_sum, k, _) Hvalues =>
                  unified_loop s k (result ++ [package_sum]) } } } }.
Proof.
  all: apply nth_error_in_range in Hch.
  all: pose proof (parse_element_cursor s i Hch) as Hj;
       rewrite Hscan in Hj; simpl in Hj.
  - lia.
  - pose proof (values_loop_cursor s count 0 0 j []) as Hk.
    rewrite Hvalues in Hk. simpl in Hk. lia.
Qed.

Definition convert_unified (s : str) : list Z :=
  let s := lower (strip s) in
  unified_loop s 0 [].

(** ** The loops as equations

    Each loop function satisfies the equation of its [while] loop: one test
    of the guard, one pass through the body, and the loop again. *)

Ltac use_tests :=
  repeat match goal with
         | E : nth_error ?s ?i = _ |- context [nth_error ?s ?i] => rewrite E
         | E : Ascii.eqb ?c ?d = _ |- context [Ascii.eqb ?c ?d] => rewrite E
         | E : Z.eqb ?c ?d = _ |- context [Z.eqb ?c ?d] => rewrite E
         | E : andb ?a ?b = _ |- context [andb ?a ?b] => rewrite E
         | E : _parse_element ?s ?i = _ |- context [_parse_element ?s ?i] =>
             rewrite E
         | E : values_loop ?s ?c ?p ?r ?i ?l = _
           |- context [values_loop ?s ?c ?p ?r ?i ?l] => rewrite E
         end.

Lemma values_loop_eq (s : str) (count package_sum read : Z) (i : nat)
    (log : list event) :
  values_loop s count package_sum read i log =
  if (read <? count) && (i <? length s)%nat then
    let '(val, j) := _parse_element s i in
    values_loop s count (package_sum + val) (read + 1) j
                (log ++ [ValueRead i val j])
  else (package_sum, i, log).
Proof.
  funelim (values_loop s count package_sum read i log);
    use_tests; reflexivity.
Qed.

Lemma convert_loop_eq (s : str) (i : nat) (result : list Z)
    (log : list event) :
  convert_loop s i result log =
  match nth_error s i with
  | None => Run i result log
  | Some ch =>
      if Ascii.eqb ch "_"%char then
        convert_loop s (i + 1) (result ++ [0]) (log ++ [Shortcut i])
      else
        let '(count, j) := _parse_element s i in
        if count =? 0 then
          convert_loop s j (result ++ [0]) (log ++ [CountRead i count j])
        else
          let '(package_sum, k, log') :=
            values_loop s count 0 0 j (log ++ [CountRead i count j]) in
          convert_loop s k (result ++ [package_sum]) log'
  end.
Proof.
  funelim (convert_loop s i result log); use_tests; reflexivity.
Qed.

(** ** Invariant rules for the two loops *)

Section LoopRules.

Variable s : str.

(** The value loop keeps every invariant its body keeps, and leaves with
    the guard [read < count and i < n] false. *)
Lemma values_loop_rule (count : Z)
    (Inv : Z -> Z -> nat -> list event -> Prop) :
  (forall package_sum read i log val j,
      Inv package_sum read i log ->
      read < count -> (i < length s)%nat ->
      _parse_element s i = (val, j) ->
      Inv (package_sum + val) (read + 1) j (log ++ [ValueRead i val j])) ->
  forall package_sum read i log,
    Inv package_sum read i log ->
    exists read',
      Inv (fst (fst (values_loop s count package_sum read i log))) read'
          (snd (fst (values_loop s count package_sum read i log)))
          (snd (values_loop s count package_sum read i log))
      /\ (count <= read'
          \/ (length s <=
              snd (fst (values_loop s count package_sum read i log)))%nat).
Proof.
  intros Hbody package_sum read i.
  remember (length s - i)%nat as m eqn:Hm.
  revert package_sum read i Hm.
  induction m as [m IH] using lt_wf_ind.
  intros package_sum read i Hm log HInv.
  rewrite values_loop_eq.
  destruct (read <? count) eqn:Hread; simpl.
  2:{ exists read. split; [assumption|]. left. apply Z.ltb_ge. assumption. }
  destruct (i <? length s)%nat eqn:Hi.
  2:{ exists read. split; [assumption|]. right. simpl.
      apply Nat.ltb_ge. assumption. }
  apply Z.ltb_lt in Hread. apply Nat.ltb_lt in Hi.
  pose proof (parse_element_cursor s i Hi) as Hj.
  destruct (_parse_element s i) as [val j] eqn:Hscan. simpl in Hj.
  apply (IH (length s - j)%nat); [lia | reflexivity |].
  eapply Hbody; eassumption.
Qed.

(** The main loop keeps every invariant that its three kinds of iteration
    keep (the sentinel branch, the zero-count branch, a summed group), and
    leaves with the guard [i < n] false. *)
Lemma convert_loop_rule (Inv : nat -> list Z -> list event -> Prop) :
  (forall i result log,
      Inv i result log ->
      nth_error s i = Some "_"%char ->
      Inv (i + 1)%nat (result ++ [0]) (log ++ [Shortcut i])) ->
  (forall i result log ch j,
      Inv i result log ->
      nth_error s i = Some ch -> ch <> "_"%char ->
      _parse_element s i = (0, j) ->
      Inv j (result ++ [0]) (log ++ [CountRead i 0 j])) ->
  (forall i result log ch count j package_sum k log',
      Inv i result log ->
      nth_error s i = Some ch -> ch <> "_"%char ->
      _parse_element s i = (count, j) -> count <> 0 ->
      values_loop s count 0 0 j (log ++ [CountRead i count j])
      = (package_sum, k, log') ->
      Inv k (result ++ [package_sum]) log') ->
  forall i result log,
    Inv i result log ->
    Inv (final_cursor (convert_loop s i result log))
        (final_result (convert_loop s i result log))
        (final_log (convert_loop s i result log))
    /\ (length s <= final_cursor (convert_loop s i result log))%nat.
Proof.
  intros Hsentinel Hzero Hgroup i.
  remember (length s - i)%nat as m eqn:Hm.
  revert i Hm.
  induction m as [m IH] using lt_wf_ind.
  intros i Hm result log HInv.
  rewrite convert_loop_eq.
  destruct (nth_error s i) as [ch|] eqn:Hch.
  2:{ simpl. split; [assumption|]. apply nth_error_None. assumption. }
  pose proof (nth_error_in_range _ _ _ Hch) as Hi.
  destruct (Ascii.eqb ch "_"%char) eqn:Hsent.
  { apply Ascii.eqb_eq in Hsent. subst ch.
    apply (IH (length s - (i + 1))%nat); [lia | reflexivity |].
    apply Hsentinel; assumption. }
  apply Ascii.eqb_neq in Hsent.
  pose proof (parse_element_cursor s i Hi) as Hj.
  destruct (_parse_element s i) as [count j] eqn:Hscan. simpl in Hj.
  destruct (count =? 0) eqn:Hcount.
  { apply Z.eqb_eq in Hcount. subst count.
    apply (IH (length s - j)%nat); [lia | reflexivity |].
    eapply Hzero; eassumption. }
  apply Z.eqb_neq in Hcount.
  pose proof (values_loop_cursor s count 0 0 j
                (log ++ [CountRead i count j])) as Hk.
  destruct (values_loop s count 0 0 j (log ++ [CountRead i count j]))
    as [[package_sum k] log'] eqn:Hvalues.
  simpl in Hk.
  apply (IH (length s - k)%nat); [lia | reflexivity |].
  eapply Hgroup; eassumption.
Qed.

End LoopRules.

(** ** The element scanner

    The vocabulary of the specification's scanner rules: the 1-based
    position of a letter in the alphabet, the simple value of a character
    (the sentinel is 0, a letter its position), and the length of the
    maximal run of ['z'] that starts at a cursor. *)

Definition alphabet_position (ch : ascii) : Z := ord ch - ord "a"%char + 1.

Definition simple_value (ch : ascii) : Z :=
  if Ascii.eqb ch "_"%char then 0 else alphabet_position ch.

Fixpoint z_run (rest : str) : nat :=
  match rest with
  | ch :: rest' => if Ascii.eqb ch "z"%char then S (z_run rest') else O
  | [] => O
  end.

Definition z_run_length (s : str) (i : nat) : nat := z_run (skipn i s).

Lemma skipn_nth_error_Some (s : str) (i : nat) (ch : ascii) :
  nth_error s i = Some ch -> skipn i s = ch :: skipn (S i) s.
Proof.
  revert i. induction s as [|c s IH]; intros [|i] H; simpl in *;
    try discriminate.
  - congruence.
  - apply IH. assumption.
Qed.

Lemma skipn_nth_error_None (s : str) (i : nat) :
  nth_error s i = None -> skipn i s = [].
Proof.
  intros H. apply skipn_all2. apply nth_error_None. assumption.
Qed.

Lemma z_run_length_here (s : str) (i : nat) :
  z_run_length s i =
  match nth_error s i with
  | Some ch => if Ascii.eqb ch "z"%char then S (z_run_length s (S i)) else O
  | None => O
  end.
Proof.
  unfold z_run_length.
  destruct (nth_error s i) as [ch|] eqn:Hch.
  - rewrite (skipn_nth_error_Some _ _ _ Hch). reflexivity.
  - rewrite (skipn_nth_error_None _ _ Hch). reflexivity.
Qed.

(** [z_run_length s i] is the length of the maximal run: every position of
    the run holds a ['z'], and the position after it does not. *)
Lemma z_run_length_maximal (s : str) (i : nat) :
  (forall k, (k < z_run_length s i)%nat ->
             nth_error s (i + k) = Some "z"%char)
  /\ nth_error s (i + z_run_length s i) <> Some "z"%char.
Proof.
  remember (length s - i)%nat as m eqn:Hm. revert i Hm.
  induction m as [m IH] using lt_wf_ind. intros i Hm.
  rewrite z_run_length_here.
  destruct (nth_error s i) as [ch|] eqn:Hch.
  2:{ split; [intros k Hk; lia|]. rewrite Nat.add_0_r, Hch. discriminate. }
  destruct (Ascii.eqb ch "z"%char) eqn:Hz.
  2:{ split; [intros k Hk; lia|]. rewrite Nat.add_0_r, Hch.
      apply Ascii.eqb_neq in Hz. congruence. }
  apply Ascii.eqb_eq in Hz. subst ch.
  pose proof (nth_error_in_range _ _ _ Hch) as Hi.
  destruct (IH (length s - S i)%nat ltac:(lia) (S i) eq_refl) as [Hrun Hend].
  split.
  - intros [|k] Hk.
    + rewrite Nat.add_0_r. assumption.
    + replace (i + S k)%nat with (S i + k)%nat by lia. apply Hrun. lia.
  - replace (i + S (z_run_length s (S i)))%nat
      with (S i + z_run_length s (S i))%nat by lia.
    assumption.
Qed.

(** The z-group loop adds 26 for each ['z'] of the run and stops after it. *)
Lemma z_loop_run (s : str) (total : Z) (i : nat) :
  z_loop s total i =
  (total + 26 * Z.of_nat (z_run_length s i), (i + z_run_length s i)%nat).
Proof.
  funelim (z_loop s total i); rewrite z_run_length_here; use_tests.
  - f_equal; lia.
  - match goal with IH : z_loop _ _ _ = (_, _) |- _ => rewrite IH end.
    replace (i + 1)%nat with (S i) by lia. f_equal; lia.
  - f_equal; lia.
Qed.

(** *** Values of the characters of the alphabet *)

Lemma ord_inj (c d : ascii) : ord c = ord d -> c = d.
Proof.
  unfold ord. intros H. apply Nat2Z.inj in H.
  rewrite <- (ascii_nat_embedding c), <- (ascii_nat_embedding d).
  congruence.
Qed.

Lemma over_alphabet_nth (s : str) (i : nat) (ch : ascii) :
  over_alphabet s -> nth_error s i = Some ch -> in_alphabet ch = true.
Proof.
  unfold over_alphabet. intros Hs Hch.
  rewrite forallb_forall in Hs. apply Hs.
  eapply nth_error_In. eassumption.
Qed.

Lemma in_alphabet_cases (ch : ascii) :
  in_alphabet ch = true ->
  ch = "_"%char \/ (97 <= ord ch <= 122 /\ ch <> "_"%char).
Proof.
  unfold in_alphabet, is_lowercase. intros H.
  destruct (Ascii.eqb ch "_"%char) eqn:E.
  - left. apply Ascii.eqb_eq. assumption.
  - right. rewrite orb_false_r in H. apply andb_prop in H as [H1 H2].
    apply Z.leb_le in H1, H2. change (ord "a"%char) with 97 in H1.
    change (ord "z"%char) with 122 in H2.
    split; [lia|]. apply Ascii.eqb_neq. assumption.
Qed.

Lemma val_sentinel : _val "_"%char = 0.
Proof. reflexivity. Qed.

Lemma val_other (ch : ascii) :
  ch <> "_"%char -> _val ch = ord ch - 96.
Proof.
  intros H. unfold _val. apply Ascii.eqb_neq in H. rewrite H.
  change (ord "a"%char) with 97. lia.
Qed.

Lemma val_simple_value (ch : ascii) : _val ch = simple_value ch.
Proof. reflexivity. Qed.

Lemma val_in_alphabet (ch : ascii) :
  in_alphabet ch = true -> 0 <= _val ch <= 26.
Proof.
  intros H. destruct (in_alphabet_cases ch H) as [->|[Hord Hne]].
  - rewrite val_sentinel. lia.
  - rewrite (val_other ch Hne). lia.
Qed.

Lemma val_not_z (ch : ascii) :
  in_alphabet ch = true -> ch <> "z"%char -> 0 <= _val ch <= 25.
Proof.
  intros H Hz. destruct (in_alphabet_cases ch H) as [->|[Hord Hne]].
  - rewrite val_sentinel. lia.
  - rewrite (val_other ch Hne).
    assert (ord ch <> 122).
    { intros E. apply Hz. apply ord_inj. exact E. }
    lia.
Qed.

Lemma val_letter (ch : ascii) :
  in_alphabet ch = true -> ch <> "_"%char -> 1 <= _val ch <= 26.
Proof.
  intros H Hne. destruct (in_alphabet_cases ch H) as [->|[Hord _]].
  - congruence.
  - rewrite (val_other ch Hne). lia.
Qed.

(** *** The scanner, case by case *)

Lemma parse_element_end (s : str) (i : nat) :
  (length s <= i)%nat -> _parse_element s i = (0, i).
Proof.
  intros H. unfold _parse_element.
  apply nth_error_None in H. rewrite H. reflexivity.
Qed.

Lemma parse_element_plain (s : str) (i : nat) (ch : ascii) :
  nth_error s i = Some ch -> ch <> "z"%char ->
  _parse_element s i = (_val ch, (i + 1)%nat).
Proof.
  intros H Hz. unfold _parse_element. rewrite H.
  apply Ascii.eqb_neq in Hz. rewrite Hz. reflexivity.
Qed.

Lemma parse_element_z (s : str) (i : nat) :
  nth_error s i = Some "z"%char ->
  _parse_element s i =
  match nth_error s (i + z_run_length s i) with
  | Some ch => (26 * Z.of_nat (z_run_length s i) + _val ch,
                (i + z_run_length s i + 1)%nat)
  | None => (26 * Z.of_nat (z_run_length s i), (i + z_run_length s i)%nat)
  end.
Proof.
  intros H. unfold _parse_element. rewrite H. simpl.
  rewrite z_loop_run. reflexivity.
Qed.

Example parse_zza : _parse_element (py "zza") 0 = (53, 3%nat).
Proof. vm_compute. reflexivity. Qed.

Example convert_mixed : convert (py " Ab_Bzzc_ ") = [2; 0; 55].
Proof. vm_compute. reflexivity. Qed.

(** ** Normalisation: [s.strip().lower()] *)

(** A fact about every character is checked on the 256 of them. *)
Ltac each_char ch :=
  destruct ch as [[] [] [] [] [] [] [] []]; vm_compute;
  try reflexivity; try discriminate; auto.

Lemma isspace_lower_char (ch : ascii) :
  isspace (lower_char ch) = isspace ch.
Proof. each_char ch. Qed.

Lemma lower_char_idempotent (ch : ascii) :
  lower_char (lower_char ch) = lower_char ch.
Proof. each_char ch. Qed.

Lemma isspace_upper_char (ch : ascii) :
  isspace (upper_char ch) = isspace ch.
Proof. each_char ch. Qed.

Lemma upper_char_space (ch : ascii) :
  isspace ch = true -> upper_char ch = ch.
Proof. each_char ch. Qed.

Lemma in_alphabet_not_space (ch : ascii) :
  in_alphabet ch = true -> isspace ch = false.
Proof. each_char ch. Qed.

Lemma in_alphabet_lower (ch : ascii) :
  in_alphabet ch = true -> lower_char ch = ch.
Proof. each_char ch. Qed.

Lemma in_alphabet_lower_upper (ch : ascii) :
  in_alphabet ch = true -> lower_char (upper_char ch) = ch.
Proof. each_char ch. Qed.

Lemma lower_idempotent (s : str) : lower (lower s) = lower s.
Proof.
  unfold lower. rewrite map_map. apply map_ext.
  apply lower_char_idempotent.
Qed.

Lemma lstrip_lower (s : str) : lstrip (lower s) = lower (lstrip s).
Proof.
  induction s as [|ch s IH]; simpl; [reflexivity|].
  rewrite isspace_lower_char. destruct (isspace ch); [assumption|reflexivity].
Qed.

Lemma rstrip_lower (s : str) : rstrip (lower s) = lower (rstrip s).
Proof.
  induction s as [|ch s IH]; [reflexivity|].
  change (lower (ch :: s)) with (lower_char ch :: lower s).
  cbn [rstrip]. rewrite IH.
  destruct (rstrip s) as [|c rest]; [|reflexivity].
  cbn [lower map]. rewrite isspace_lower_char.
  destruct (isspace ch); reflexivity.
Qed.

Lemma strip_lower (s : str) : strip (lower s) = lower (strip s).
Proof. unfold strip. rewrite lstrip_lower, rstrip_lower. reflexivity. Qed.

(** A string that does not start with whitespace. *)
Definition starts_clean (s : str) : Prop :=
  match s with
  | [] => True
  | ch :: _ => isspace ch = false
  end.

Lemma lstrip_starts_clean (s : str) : starts_clean (lstrip s).
Proof.
  induction s as [|ch s IH]; simpl; [exact I|].
  destruct (isspace ch) eqn:E; [assumption|exact E].
Qed.

Lemma lstrip_clean (s : str) : starts_clean s -> lstrip s = s.
Proof.
  destruct s as [|ch s]; simpl; [reflexivity|]. intros ->. reflexivity.
Qed.

Lemma rstrip_starts_clean (s : str) : starts_clean s -> starts_clean (rstrip s).
Proof.
  destruct s as [|ch s]; simpl; [trivial|]. intros H.
  destruct (rstrip s); simpl; [rewrite H|]; assumption.
Qed.

Lemma rstrip_idempotent (s : str) : rstrip (rstrip s) = rstrip s.
Proof.
  induction s as [|ch s IH]; simpl; [reflexivity|].
  destruct (rstrip s) as [|c rest] eqn:E.
  - destruct (isspace ch) eqn:Hch; simpl; [reflexivity|].
    rewrite Hch. reflexivity.
  - change (rstrip (ch :: c :: rest))
      with (match rstrip (c :: rest) with
            | [] => if isspace ch then [] else [ch]
            | rest' => ch :: rest'
            end).
    rewrite IH. reflexivity.
Qed.

Lemma strip_idempotent (s : str) : strip (strip s) = strip s.
Proof.
  unfold strip.
  rewrite (lstrip_clean (rstrip (lstrip s)))
    by (apply rstrip_starts_clean, lstrip_starts_clean).
  apply rstrip_idempotent.
Qed.

(** Normalising twice is normalising once. *)
Lemma normalize_idempotent (s : str) :
  lower (strip (lower (strip s))) = lower (strip s).
Proof.
  rewrite strip_lower, strip_idempotent. apply lower_idempotent.
Qed.

(** A string without whitespace, in whitespace. *)
Lemma lstrip_blank (ws s : str) : blank ws -> lstrip (ws ++ s) = lstrip s.
Proof.
  unfold blank. induction ws as [|ch ws IH]; simpl; [reflexivity|].
  intros H. apply andb_prop in H as [Hch Hws]. rewrite Hch. auto.
Qed.

Lemma rstrip_blank (ws : str) : blank ws -> rstrip ws = [].
Proof.
  unfold blank. induction ws as [|ch ws IH]; simpl; [reflexivity|].
  intros H. apply andb_prop in H as [Hch Hws].
  rewrite (IH Hws), Hch. reflexivity.
Qed.

Lemma rstrip_solid (s ws : str) :
  forallb (fun ch => negb (isspace ch)) s = true -> blank ws ->
  rstrip (s ++ ws) = s.
Proof.
  intros Hs Hws. induction s as [|ch s IH]; simpl.
  - apply rstrip_blank. assumption.
  - simpl in Hs. apply andb_prop in Hs as [Hch Hs].
    rewrite (IH Hs). apply negb_true_iff in Hch. rewrite Hch.
    destruct s; reflexivity.
Qed.

Lemma lstrip_all_blank (ws : str) : blank ws -> lstrip ws = [].
Proof.
  intros H. rewrite <- (app_nil_r ws). rewrite lstrip_blank by assumption.
  reflexivity.
Qed.

Lemma strip_padded (ws1 s ws2 : str) :
  blank ws1 -> forallb (fun ch => negb (isspace ch)) s = true -> blank ws2 ->
  strip (ws1 ++ s ++ ws2) = s.
Proof.
  intros H1 Hs H2. unfold strip. rewrite (lstrip_blank _ _ H1).
  destruct s as [|ch s].
  - simpl. rewrite (lstrip_all_blank _ H2). reflexivity.
  - rewrite lstrip_clean.
    + apply rstrip_solid; assumption.
    + simpl in *. apply andb_prop in Hs as [Hch _].
      apply negb_true_iff. assumption.
Qed.

Lemma over_alphabet_solid (s : str) :
  over_alphabet s -> forallb (fun ch => negb (isspace ch)) s = true.
Proof.
  unfold over_alphabet. rewrite !forallb_forall. intros H ch Hin.
  rewrite (in_alphabet_not_space ch (H ch Hin)). reflexivity.
Qed.

Lemma over_alphabet_lower (s : str) : over_alphabet s -> lower s = s.
Proof.
  unfold over_alphabet, lower. rewrite forallb_forall. intros H.
  rewrite <- (map_id s) at 2. apply map_ext_in.
  intros ch Hin. apply in_alphabet_lower. auto.
Qed.

(** Normalisation leaves a string over the alphabet as it is. *)
Lemma over_alphabet_normalized (s : str) :
  over_alphabet s -> lower (strip s) = s.
Proof.
  intros H.
  pose proof (strip_padded [] s [] eq_refl (over_alphabet_solid s H) eq_refl)
    as Hstrip.
  simpl in Hstrip. rewrite app_nil_r in Hstrip. rewrite Hstrip.
  apply over_alphabet_lower. assumption.
Qed.

(** The run of [convert] on a normalised string is the run of the loop. *)
Lemma convert_run_over_alphabet (s : str) :
  over_alphabet s -> convert_run s = convert_loop s 0 [] [].
Proof.
  intros H. unfold convert_run. rewrite (over_alphabet_normalized s H).
  reflexivity.
Qed.

(** ** Facts about the scanner on the alphabet *)

Lemma parse_element_nonneg (s : str) (i : nat) :
  over_alphabet s -> 0 <= fst (_parse_element s i).
Proof.
  intros Hs. destruct (nth_error s i) as [ch|] eqn:Hch.
  2:{ rewrite parse_element_end by (apply nth_error_None; assumption).
      cbn [fst]. lia. }
  pose proof (over_alphabet_nth s i ch Hs Hch) as Hin.
  destruct (Ascii.eqb ch "z"%char) eqn:Hz.
  - apply Ascii.eqb_eq in Hz. subst ch.
    rewrite (parse_element_z s i Hch).
    destruct (nth_error s (i + z_run_length s i)) as [ch|] eqn:Hnext;
      cbn [fst]; [|lia].
    pose proof (val_in_alphabet ch (over_alphabet_nth _ _ _ Hs Hnext)). lia.
  - apply Ascii.eqb_neq in Hz.
    rewrite (parse_element_plain s i ch Hch Hz). cbn [fst].
    apply val_in_alphabet. assumption.
Qed.

(** A count read that starts on a character other than the sentinel reads
    at least 1. *)
Lemma parse_element_count_positive (s : str) (i : nat) (ch : ascii) :
  over_alphabet s -> nth_error s i = Some ch -> ch <> "_"%char ->
  1 <= fst (_parse_element s i).
Proof.
  intros Hs Hch Hne.
  pose proof (over_alphabet_nth s i ch Hs Hch) as Hin.
  destruct (Ascii.eqb ch "z"%char) eqn:Hz.
  - apply Ascii.eqb_eq in Hz. subst ch.
    rewrite (parse_element_z s i Hch).
    assert (1 <= z_run_length s i)%nat
      by (rewrite z_run_length_here, Hch; simpl; lia).
    destruct (nth_error s (i + z_run_length s i)) as [ch|] eqn:Hnext;
      cbn [fst]; [|lia].
    pose proof (val_in_alphabet ch (over_alphabet_nth _ _ _ Hs Hnext)). lia.
  - apply Ascii.eqb_neq in Hz.
    rewrite (parse_element_plain s i ch Hch Hz). cbn [fst].
    apply val_letter; assumption.
Qed.

(** ** Facts about the log *)

Lemma packages_app (log log' : list event) :
  packages (log ++ log') = (packages log + packages log')%nat.
Proof. unfold packages. rewrite filter_app, length_app. reflexivity. Qed.

Lemma count_reads_app (log log' : list event) :
  count_reads (log ++ log') = (count_reads log + count_reads log')%nat.
Proof. unfold count_reads. rewrite filter_app, length_app. reflexivity. Qed.

(** The value loop only adds value reads to the log. *)
Lemma values_loop_log (s : str) (count package_sum read : Z) (i : nat)
    (log : list event) :
  exists reads,
    snd (values_loop s count package_sum read i log) = log ++ reads
    /\ Forall (fun e => exists i val j, e = ValueRead i val j) reads.
Proof.
  destruct (values_loop_rule s count
              (fun _ _ _ log' =>
                 exists reads,
                   log' = log ++ reads
                   /\ Forall (fun e => exists i val j, e = ValueRead i val j)
                        reads))
    with (package_sum := package_sum) (read := read) (i := i) (log := log)
    as [read' [H _]].
  - intros ps r i' log' val j [reads [-> Hreads]] _ _ _.
    exists (reads ++ [ValueRead i' val j]). split.
    + rewrite app_assoc. reflexivity.
    + apply Forall_app. split; [assumption|].
      constructor; [|constructor]. eauto.
  - exists []. split; [rewrite app_nil_r; reflexivity | constructor].
  - exact H.
Qed.

Lemma value_reads_packages (reads : list event) :
  Forall (fun e => exists i val j, e = ValueRead i val j) reads ->
  packages reads = 0%nat /\ count_reads reads = 0%nat.
Proof.
  induction 1 as [|e reads [i [val [j ->]]] _ [IH1 IH2]]; [split; reflexivity|].
  unfold packages, count_reads in *. simpl. split; assumption.
Qed.

(** ** Facts about the value loop *)

Lemma values_loop_nonneg (s : str) (count package_sum read : Z) (i : nat)
    (log : list event) :
  over_alphabet s -> 0 <= package_sum ->
  0 <= fst (fst (values_loop s count package_sum read i log)).
Proof.
  intros Hs Hsum.
  destruct (values_loop_rule s count (fun ps _ _ _ => 0 <= ps))
    with (package_sum := package_sum) (read := read) (i := i) (log := log)
    as [read' [H _]]; [|assumption|exact H].
  intros ps r i' log' val j Hps _ _ Hscan.
  pose proof (parse_element_nonneg s i' Hs) as Hval.
  rewrite Hscan in Hval. simpl in Hval. lia.
Qed.

Lemma values_loop_path (s : str) (count package_sum read : Z) (i : nat)
    (log : list event) :
  cursor_path (length s) 0 log i ->
  cursor_path (length s) 0
    (snd (values_loop s count package_sum read i log))
    (snd (fst (values_loop s count package_sum read i log))).
Proof.
  intros Hpath.
  destruct (values_loop_rule s count
              (fun _ _ i' log' => cursor_path (length s) 0 log' i'))
    with (package_sum := package_sum) (read := read) (i := i) (log := log)
    as [read' [H _]]; [|assumption|exact H].
  intros ps r i' log' val j Hp _ Hi Hscan.
  pose proof (parse_element_cursor s i' Hi) as Hj.
  rewrite Hscan in Hj. simpl in Hj.
  eapply path_step; [eassumption|reflexivity|lia].
Qed.

Lemma values_loop_reads_of (s : str) (count package_sum read : Z) (i : nat)
    (log : list event) :
  Forall (reads_of s) log ->
  Forall (reads_of s) (snd (values_loop s count package_sum read i log)).
Proof.
  intros Hlog.
  destruct (values_loop_rule s count
              (fun _ _ _ log' => Forall (reads_of s) log'))
    with (package_sum := package_sum) (read := read) (i := i) (log := log)
    as [read' [H _]]; [|assumption|exact H].
  intros ps r i' log' val j Hlog' _ _ Hscan.
  apply Forall_app. split; [assumption|].
  constructor; [exact Hscan|constructor].
Qed.

Lemma values_loop_in_range (s : str) (count package_sum read : Z) (i : nat)
    (log : list event) :
  (i <= length s)%nat ->
  (i <= snd (fst (values_loop s count package_sum read i log))
     <= length s)%nat.
Proof.
  intros Hi. split; [apply values_loop_cursor|].
  destruct (values_loop_rule s count
              (fun _ _ i' _ => (i' <= length s)%nat))
    with (package_sum := package_sum) (read := read) (i := i) (log := log)
    as [read' [H _]]; [|assumption|exact H].
  intros ps r i' log' val j _ _ Hi' Hscan.
  pose proof (parse_element_cursor s i' Hi') as Hj.
  rewrite Hscan in Hj. simpl in Hj. lia.
Qed.

Lemma repeat_snoc {A : Type} (x : A) (n : nat) :
  repeat x n ++ [x] = repeat x (n + 1).
Proof. rewrite repeat_app. reflexivity. Qed.

Lemma over_alphabet_sentinels (N : nat) : over_alphabet (repeat "_"%char N).
Proof.
  unfold over_alphabet. induction N as [|N IH]; simpl; [reflexivity|].
  rewrite IH. reflexivity.
Qed.

(** ** The value loop and [read_values] *)

(** The loop's sum and cursor do not depend on the log it is given. *)
Lemma values_loop_reads (s : str) (count package_sum read : Z) (i : nat)
    (log : list event) :
  fst (values_loop s count package_sum read i log) =
  (package_sum + fst (read_values s (Z.to_nat (count - read)) i),
   snd (read_values s (Z.to_nat (count - read)) i)).
Proof.
  remember (Z.to_nat (count - read)) as todo eqn:Htodo.
  revert package_sum read i log Htodo.
  induction todo as [|todo IH]; intros package_sum read i log Htodo;
    rewrite values_loop_eq.
  - assert ((read <? count) = false) as -> by (apply Z.ltb_ge; lia).
    simpl. f_equal. lia.
  - assert ((read <? count) = true) as -> by (apply Z.ltb_lt; lia).
    simpl. destruct (i <? length s)%nat; [|simpl; f_equal; lia].
    destruct (_parse_element s i) as [val j].
    rewrite (IH (package_sum + val) (read + 1) j) by lia.
    destruct (read_values s todo j) as [sum k]. simpl. f_equal. lia.
Qed.

Lemma unified_loop_eq (s : str) (i : nat) (result : list Z) :
  unified_loop s i result =
  match nth_error s i with
  | None => result
  | Some _ =>
      let '(count, j) := _parse_element s i in
      if count =? 0 then unified_loop s j (result ++ [0])
      else
        let '(package_sum, k, _) := values_loop s count 0 0 j [] in
        unified_loop s k (result ++ [package_sum])
  end.
Proof.
  funelim (unified_loop s i result); use_tests; reflexivity.
Qed.

(** The main loop and the loop without the shortcut build the same
    [result], on every string. *)
Lemma convert_loop_unified (s : str) (i : nat) (result : list Z)
    (log : list event) :
  final_result (convert_loop s i result log) = unified_loop s i result.
Proof.
  remember (length s - i)%nat as m eqn:Hm. revert i result log Hm.
  induction m as [m IH] using lt_wf_ind. intros i result log Hm.
  rewrite convert_loop_eq, unified_loop_eq.
  destruct (nth_error s i) as [ch|] eqn:Hch; [|reflexivity].
  pose proof (nth_error_in_range _ _ _ Hch) as Hi.
  destruct (Ascii.eqb ch "_"%char) eqn:Hsent.
  { apply Ascii.eqb_eq in Hsent. subst ch.
    rewrite (parse_element_plain s i "_"%char Hch) by discriminate.
    simpl. apply (IH (length s - (i + 1))%nat); lia. }
  pose proof (parse_element_cursor s i Hi) as Hj.
  destruct (_parse_element s i) as [count j]. simpl in Hj.
  destruct (count =? 0).
  { apply (IH (length s - j)%nat); lia. }
  pose proof (values_loop_cursor s count 0 0 j
                (log ++ [CountRead i count j])) as Hk.
  pose proof (values_loop_reads s count 0 0 j
                (log ++ [CountRead i count j])) as H1.
  pose proof (values_loop_reads s count 0 0 j []) as H2.
  destruct (values_loop s count 0 0 j (log ++ [CountRead i count j]))
    as [[package_sum k] log1].
  destruct (values_loop s count 0 0 j []) as [[package_sum' k'] log2].
  simpl in Hk, H1, H2. rewrite <- H1 in H2. injection H2 as -> ->.
  apply (IH (length s - k)%nat); lia.
Qed.

Lemma convert_unified_eq (s : str) : convert s = convert_unified s.
Proof. apply convert_loop_unified. Qed.

(** ** The main loop and [decodes] *)

Lemma decodes_functional (s : str) (i : nat) (out out' : list Z) :
  decodes s i out -> decodes s i out' -> out = out'.
Proof.
  intros H. revert out'.
  induction H as [i Hi
                 |i out Hch _ IH
                 |i ch j out Hch Hne Hscan _ IH
                 |i ch count j sum k out Hch Hne Hscan Hcount Hread _ IH];
    intros out' H';
    inversion H' as [i' Hi'
                    |i' out2 Hch' Hrest
                    |i' ch' j' out2 Hch' Hne' Hscan' Hrest
                    |i' ch' count' j' sum' k' out2 Hch' Hne' Hscan' Hcount'
                       Hread' Hrest];
    subst;
    try (apply nth_error_in_range in Hch; lia);
    try (apply nth_error_in_range in Hch'; lia);
    try congruence.
  - f_equal. apply IH. assumption.
  - f_equal. apply IH. congruence.
  - assert (count' = count /\ j' = j) as [-> ->] by (split; congruence).
    assert (sum' = sum /\ k' = k) as [-> ->] by (split; congruence).
    f_equal. apply IH. assumption.
Qed.

Lemma convert_loop_decodes (s : str) (i : nat) (result : list Z)
    (log : list event) :
  (i <= length s)%nat ->
  exists out,
    decodes s i out
    /\ final_result (convert_loop s i result log) = result ++ out.
Proof.
  remember (length s - i)%nat as m eqn:Hm. revert i result log Hm.
  induction m as [m IH] using lt_wf_ind. intros i result log Hm Hi.
  rewrite convert_loop_eq.
  destruct (nth_error s i) as [ch|] eqn:Hch.
  2:{ exists []. split; [|simpl; rewrite app_nil_r; reflexivity].
      apply decodes_end. apply nth_error_None in Hch. lia. }
  pose proof (nth_error_in_range _ _ _ Hch) as Hlt.
  destruct (Ascii.eqb ch "_"%char) eqn:Hsent.
  { apply Ascii.eqb_eq in Hsent. subst ch.
    destruct (IH (length s - (i + 1))%nat ltac:(lia) (i + 1)%nat
                (result ++ [0]) (log ++ [Shortcut i]) eq_refl ltac:(lia))
      as [out [Hout Heq]].
    exists (0 :: out). split; [apply decodes_sentinel; assumption|].
    rewrite Heq, <- app_assoc. reflexivity. }
  apply Ascii.eqb_neq in Hsent.
  pose proof (parse_element_cursor s i Hlt) as Hj.
  destruct (_parse_element s i) as [count j] eqn:Hscan. simpl in Hj.
  destruct (count =? 0) eqn:Hcount.
  { apply Z.eqb_eq in Hcount. subst count.
    destruct (IH (length s - j)%nat ltac:(lia) j
                (result ++ [0]) (log ++ [CountRead i 0 j]) eq_refl
                ltac:(lia))
      as [out [Hout Heq]].
    exists (0 :: out). split; [eapply decodes_zero; eassumption|].
    rewrite Heq, <- app_assoc. reflexivity. }
  apply Z.eqb_neq in Hcount.
  pose proof (values_loop_in_range s count 0 0 j
                (log ++ [CountRead i count j]) ltac:(lia)) as Hk.
  pose proof (values_loop_reads s count 0 0 j
                (log ++ [CountRead i count j])) as Hreads.
  destruct (values_loop s count 0 0 j (log ++ [CountRead i count j]))
    as [[package_sum k] log'].
  simpl in Hk, Hreads. rewrite Z.sub_0_r in Hreads.
  destruct (IH (length s - k)%nat ltac:(lia) k
              (result ++ [package_sum]) log' eq_refl ltac:(lia))
    as [out [Hout Heq]].
  exists (package_sum :: out). split.
  - eapply decodes_group; try eassumption.
    destruct (read_values s (Z.to_nat count) j) as [sum k'].
    simpl in Hreads. injection Hreads as -> ->. reflexivity.
  - rewrite Heq, <- app_assoc. reflexivity.
Qed.

(** ** Upper case and padding *)

Lemma upper_blank (ws : str) : blank ws -> upper ws = ws.
Proof.
  unfold blank, upper. rewrite forallb_forall. intros H.
  rewrite <- (map_id ws) at 2. apply map_ext_in.
  intros ch Hin. apply upper_char_space. auto.
Qed.

Lemma upper_solid (s : str) :
  over_alphabet s ->
  forallb (fun ch => negb (isspace ch)) (upper s) = true.
Proof.
  intros Hs. apply over_alphabet_solid in Hs.
  unfold upper. rewrite forallb_forall in *.
  intros ch Hin. apply in_map_iff in Hin as [c [<- Hc]].
  rewrite isspace_upper_char. auto.
Qed.

Lemma lower_upper (s : str) : over_alphabet s -> lower (upper s) = s.
Proof.
  unfold over_alphabet, lower, upper. rewrite forallb_forall. intros H.
  rewrite map_map. rewrite <- (map_id s) at 2. apply map_ext_in.
  intros ch Hin. apply in_alphabet_lower_upper. auto.
Qed.

(** [convert] normalises its argument itself, so normalising it beforehand
    changes nothing. *)
Lemma convert_normalized (s : str) : convert (lower (strip s)) = convert s.
Proof.
  unfold convert, convert_run. rewrite normalize_idempotent. reflexivity.
Qed.

Lemma parse_element_in_range (s : str) (i : nat) :
  (i <= length s)%nat ->
  (i <= snd (_parse_element s i) <= length s)%nat.
Proof.
  intros Hi. destruct (Nat.eq_dec i (length s)) as [->|Hne].
  - rewrite parse_element_end by lia. simpl. lia.
  - pose proof (parse_element_cursor s i ltac:(lia)). lia.
Qed.

(** * The properties of the specification *)

(** C1. For a string over [{a-z, _}], [convert] follows the sequence
    decoder of the specification: from the cursor 0 and until the cursor
    reaches the length of the stream, a sentinel gives a zero package and
    moves the cursor by one; otherwise one element is scanned as the count,
    a count of 0 gives a zero package, and any other count gives, as one
    package, the sum of up to [count] further elements, fewer when the
    stream runs out (0 when none is left).  The list returned holds these
    packages in the order they were met, and no other list does. *)
Theorem convert_follows_decoder (s : str) :
  over_alphabet s ->
  decodes s 0 (convert s)
  /\ (forall out : list Z, decodes s 0 out -> out = convert s).
Proof.
  intros Hs. unfold convert. rewrite (convert_run_over_alphabet s Hs).
  destruct (convert_loop_decodes s 0 [] [] ltac:(lia)) as [out [Hout Heq]].
  simpl in Heq. rewrite Heq. split; [assumption|].
  intros out' Hout'. eapply decodes_functional; eassumption.
Qed.

Lemma convert_follows_decoder_witness :
  decodes (py "ab_bzzc_") 0 (convert (py "ab_bzzc_"))
  /\ (forall out : list Z,
        decodes (py "ab_bzzc_") 0 out -> out = convert (py "ab_bzzc_")).
Proof. exact (convert_follows_decoder (py "ab_bzzc_") eq_refl). Defined.

(** C2. The element scanner, for a string [s] over [{a-z, _}] and a cursor
    [0 <= i <= len(s)]: at or past the end it returns [(0, i)]; on the
    sentinel ['_'] it returns [(0, i + 1)]; on a lowercase letter other than
    ['z'] it returns the letter's 1-based alphabet position (1..25) and
    [i + 1]; on a ['z'] it returns 26 times the length of the maximal run of
    ['z'] that starts at [i], plus, when a character is left after the run,
    the simple value (0 for the sentinel, 1..25 for a letter) of that one
    character, which is not a ['z']; the cursor ends just past the last
    character consumed. *)
Theorem parse_element_rules (s : str) (i : nat) :
  over_alphabet s -> (i <= length s)%nat ->
  ((length s <= i)%nat -> _parse_element s i = (0, i))
  /\ (nth_error s i = Some "_"%char ->
      _parse_element s i = (0, (i + 1)%nat))
  /\ (forall ch,
        nth_error s i = Some ch -> is_lowercase ch = true ->
        ch <> "z"%char ->
        _parse_element s i = (alphabet_position ch, (i + 1)%nat)
        /\ 1 <= alphabet_position ch <= 25)
  /\ (nth_error s i = Some "z"%char ->
      let r := z_run_length s i in
      (1 <= r)%nat
      /\ (forall k, (k < r)%nat -> nth_error s (i + k) = Some "z"%char)
      /\ match nth_error s (i + r) with
         | None =>
             (i + r)%nat = length s
             /\ _parse_element s i = (26 * Z.of_nat r, (i + r)%nat)
         | Some ch =>
             ch <> "z"%char
             /\ 0 <= simple_value ch <= 25
             /\ _parse_element s i
                = (26 * Z.of_nat r + simple_value ch, (i + r + 1)%nat)
         end).
Proof.
  intros Hs Hi. split; [|split; [|split]].
  - apply parse_element_end.
  - intros H. rewrite (parse_element_plain s i "_"%char H); [|discriminate].
    reflexivity.
  - intros ch Hch Hlow Hz.
    assert (ch <> "_"%char) as Hne by (intros ->; discriminate).
    assert (in_alphabet ch = true) as Hin
        by (unfold in_alphabet; rewrite Hlow; reflexivity).
    pose proof (val_not_z ch Hin Hz) as Hhi.
    pose proof (val_letter ch Hin Hne) as Hlo.
    assert (_val ch = alphabet_position ch) as Hval.
    { unfold _val. apply Ascii.eqb_neq in Hne. rewrite Hne. reflexivity. }
    rewrite (parse_element_plain s i ch Hch Hz), Hval.
    split; [reflexivity | lia].
  - intros Hz r. subst r.
    destruct (z_run_length_maximal s i) as [Hrun Hend].
    split; [|split; [assumption|]].
    { rewrite z_run_length_here, Hz. simpl. lia. }
    pose proof (parse_element_z s i Hz) as Hparse.
    pose proof (z_loop_cursor s 0 i Hi) as Hcur.
    rewrite z_loop_run in Hcur. simpl in Hcur.
    destruct (nth_error s (i + z_run_length s i)) as [ch|] eqn:Hch.
    + assert (ch <> "z"%char) as Hnz by congruence.
      split; [assumption|]. rewrite <- val_simple_value. split.
      * apply val_not_z; [|assumption].
        eapply over_alphabet_nth; eassumption.
      * assumption.
    + split; [|assumption]. apply nth_error_None in Hch. lia.
Qed.

Lemma parse_element_rules_witness :
  _parse_element (py "azz_b") 1 = (52, 4%nat).
Proof.
  pose proof (parse_element_rules (py "azz_b") 1 eq_refl
                ltac:(simpl; lia)) as [_ [_ [_ H]]].
  specialize (H eq_refl). simpl in H.
  destruct H as [_ [_ [_ [_ H]]]]. exact H.
Defined.

(** C3. The decode equations of the specification's testable properties:
    the empty string decodes to the empty sequence, ["_"] to [[0]], ["a"] to
    [[0]], ["aa"] to [[1]], ["ab"] to [[2]], ["za"] to [[0]] and ["zza"] to
    [[0]]; and a string of [N] sentinels decodes to [N] zeros. *)
Theorem convert_examples :
  convert (py "") = []
  /\ convert (py "_") = [0]
  /\ convert (py "a") = [0]
  /\ convert (py "aa") = [1]
  /\ convert (py "ab") = [2]
  /\ convert (py "za") = [0]
  /\ convert (py "zza") = [0]
  /\ forall N : nat, convert (repeat "_"%char N) = repeat 0 N.
Proof.
  repeat (split; [vm_compute; reflexivity|]).
  intros N. unfold convert.
  rewrite (convert_run_over_alphabet _ (over_alphabet_sentinels N)).
  set (s := repeat "_"%char N).
  destruct (convert_loop_rule s
              (fun i result _ => (i <= N)%nat /\ result = repeat 0 i))
    with (i := 0%nat) (result := @nil Z) (log := @nil event)
    as [[Hle Hres] Hge].
  - intros i result _ [Hi ->] Hch. split.
    + apply nth_error_in_range in Hch. unfold s in Hch.
      rewrite repeat_length in Hch. lia.
    + apply repeat_snoc.
  - intros i result _ ch j _ Hch Hne _. exfalso. apply Hne.
    apply nth_error_In in Hch. apply repeat_spec in Hch. assumption.
  - intros i result log ch count j package_sum k log' _ Hch Hne. exfalso.
    apply Hne. apply nth_error_In in Hch. apply repeat_spec in Hch.
    assumption.
  - split; [lia|reflexivity].
  - assert (length s = N) as Hlen by apply repeat_length.
    rewrite Hres. f_equal. lia.
Qed.

(** C4. For a string over [{a-z, _}], [convert] returns a sequence of
    non-negative integers, with one entry for each package the run
    decoded. *)
Theorem convert_nonnegative (s : str) :
  over_alphabet s ->
  Forall (fun package => 0 <= package) (convert s)
  /\ length (convert s) = packages (final_log (convert_run s)).
Proof.
  intros Hs. unfold convert. rewrite (convert_run_over_alphabet s Hs).
  destruct (convert_loop_rule s
              (fun _ result log =>
                 Forall (fun package => 0 <= package) result
                 /\ length result = packages log))
    with (i := 0%nat) (result := @nil Z) (log := @nil event)
    as [H _]; [| | | |exact H].
  - intros i result log [Hpos Hlen] _. split.
    + apply Forall_app. split; [assumption|]. repeat constructor. lia.
    + rewrite length_app, packages_app, Hlen. reflexivity.
  - intros i result log ch j [Hpos Hlen] _ _ _. split.
    + apply Forall_app. split; [assumption|]. repeat constructor. lia.
    + rewrite length_app, packages_app, Hlen. reflexivity.
  - intros i result log ch count j package_sum k log' [Hpos Hlen] _ _ _ _
      Hvalues.
    pose proof (values_loop_nonneg s count 0 0 j
                  (log ++ [CountRead i count j]) Hs ltac:(lia)) as Hsum.
    destruct (values_loop_log s count 0 0 j (log ++ [CountRead i count j]))
      as [reads [Hlog Hreads]].
    rewrite Hvalues in Hsum, Hlog. simpl in Hsum, Hlog. subst log'.
    destruct (value_reads_packages reads Hreads) as [Hnone _].
    split.
    + apply Forall_app. split; [assumption|]. repeat constructor. assumption.
    + rewrite length_app, !packages_app, Hlen, Hnone.
      change (packages [CountRead i count j]) with 1%nat. simpl. lia.
  - split; [constructor|reflexivity].
Qed.

Lemma convert_nonnegative_witness :
  Forall (fun package => 0 <= package) (convert (py "ab_bzzc_"))
  /\ length (convert (py "ab_bzzc_"))
     = packages (final_log (convert_run (py "ab_bzzc_"))).
Proof. exact (convert_nonnegative (py "ab_bzzc_") eq_refl). Defined.

(** C5. The main loop of [convert] terminates on every input string
    ([convert_loop] is a total function, by well-founded recursion on the
    characters left, and its body runs at most [n] times, [n] being the
    [len(s)] of the stream the loop runs on), it ends exactly when the
    cursor reaches the length of the stream, and it calls the scanner at
    most [n] times to read a count, each of these calls consuming at least
    one character. *)
Theorem convert_terminates (s : str) :
  let stream := lower (strip s) in
  exists r : run,
    convert_run s = r
    /\ final_cursor r = length stream
    /\ (packages (final_log r) <= length stream)%nat
    /\ (count_reads (final_log r) <= length stream)%nat
    /\ Forall (fun e => is_count_read e = true ->
                        (fst (moves e) < snd (moves e))%nat)
         (final_log r).
Proof.
  intros stream. exists (convert_run s). split; [reflexivity|].
  unfold convert_run. fold stream.
  destruct (convert_loop_rule stream
              (fun i _ log =>
                 (i <= length stream)%nat
                 /\ (packages log <= i)%nat
                 /\ (count_reads log <= i)%nat
                 /\ Forall (fun e => is_count_read e = true ->
                                     (fst (moves e) < snd (moves e))%nat)
                      log))
    with (i := 0%nat) (result := @nil Z) (log := @nil event)
    as [[Hle [Hpack [Hcount Hall]]] Hge].
  - intros i result log [Hi [Hpack [Hcount Hall]]] Hch.
    apply nth_error_in_range in Hch. split; [lia|].
    rewrite packages_app, count_reads_app.
    change (packages [Shortcut i]) with 1%nat.
    change (count_reads [Shortcut i]) with 0%nat.
    split; [lia|]. split; [lia|].
    apply Forall_app. split; [assumption|].
    repeat constructor. discriminate.
  - intros i result log ch j [Hi [Hpack [Hcount Hall]]] Hch _ Hscan.
    apply nth_error_in_range in Hch.
    pose proof (parse_element_cursor stream i Hch) as Hj.
    rewrite Hscan in Hj. simpl in Hj. split; [lia|].
    rewrite packages_app, count_reads_app.
    change (packages [CountRead i 0 j]) with 1%nat.
    change (count_reads [CountRead i 0 j]) with 1%nat.
    split; [lia|]. split; [lia|].
    apply Forall_app. split; [assumption|].
    repeat constructor. simpl. lia.
  - intros i result log ch count j package_sum k log'
      [Hi [Hpack [Hcount Hall]]] Hch _ Hscan _ Hvalues.
    apply nth_error_in_range in Hch.
    pose proof (parse_element_cursor stream i Hch) as Hj.
    rewrite Hscan in Hj. simpl in Hj.
    pose proof (values_loop_in_range stream count 0 0 j
                  (log ++ [CountRead i count j]) ltac:(lia)) as Hk.
    destruct (values_loop_log stream count 0 0 j
                (log ++ [CountRead i count j])) as [reads [Hlog Hreads]].
    rewrite Hvalues in Hk, Hlog. simpl in Hk, Hlog. subst log'.
    destruct (value_reads_packages reads Hreads) as [Hnone Hnone'].
    split; [lia|].
    rewrite !packages_app, !count_reads_app, Hnone, Hnone'.
    change (packages [CountRead i count j]) with 1%nat.
    change (count_reads [CountRead i count j]) with 1%nat.
    split; [lia|]. split; [lia|].
    repeat (apply Forall_app; split); [assumption| |].
    + repeat constructor. simpl. lia.
    + eapply Forall_impl; [|exact Hreads].
      intros e [i' [val [j' ->]]]. discriminate.
  - split; [lia|]. split; [unfold packages; simpl; lia|].
    split; [unfold count_reads; simpl; lia|constructor].
  - split; [lia|]. split; [lia|]. split; [lia|assumption].
Qed.

(** C6. The cursor only moves forward. For every string [s] and cursor
    [0 <= i <= len(s)], the cursor [i'] that [_parse_element(s, i)] returns
    satisfies [i <= i' <= len(s)]; and over a whole run of [convert] the
    moves of the cursor form a path from 0 to the final cursor in which no
    move goes backwards or past the length of the stream.  The stream is
    not mutated (a [str] cannot be): whatever the run reads, at any time,
    is what the normalised input holds at that cursor. *)
Theorem cursor_monotone (s : str) (i : nat) :
  (i <= length s)%nat ->
  (i <= snd (_parse_element s i) <= length s)%nat
  /\ (let stream := lower (strip s) in
      cursor_path (length stream) 0
        (final_log (convert_run s)) (final_cursor (convert_run s))
      /\ (final_cursor (convert_run s) <= length stream)%nat
      /\ Forall (reads_of stream) (final_log (convert_run s))).
Proof.
  intros Hi. split; [apply parse_element_in_range; assumption|].
  intros stream. unfold convert_run. fold stream.
  destruct (convert_loop_rule stream
              (fun i _ log =>
                 cursor_path (length stream) 0 log i
                 /\ (i <= length stream)%nat
                 /\ Forall (reads_of stream) log))
    with (i := 0%nat) (result := @nil Z) (log := @nil event)
    as [H _]; [| | | |exact H].
  - intros j result log [Hpath [Hj Hlog]] Hch.
    pose proof (nth_error_in_range _ _ _ Hch) as Hlt.
    split; [|split; [lia|]].
    + eapply path_step; [eassumption|reflexivity|lia].
    + apply Forall_app. split; [assumption|].
      constructor; [exact Hch|constructor].
  - intros j result log ch k [Hpath [Hj Hlog]] Hch _ Hscan.
    apply nth_error_in_range in Hch.
    pose proof (parse_element_cursor stream j Hch) as Hk.
    rewrite Hscan in Hk. simpl in Hk.
    split; [|split; [lia|]].
    + eapply path_step; [eassumption|reflexivity|lia].
    + apply Forall_app. split; [assumption|].
      constructor; [exact Hscan|constructor].
  - intros j result log ch count k package_sum l log' [Hpath [Hj Hlog]]
      Hch _ Hscan _ Hvalues.
    apply nth_error_in_range in Hch.
    pose proof (parse_element_cursor stream j Hch) as Hk.
    rewrite Hscan in Hk. simpl in Hk.
    assert (cursor_path (length stream) 0 (log ++ [CountRead j count k]) k)
      as Hpath' by (eapply path_step; [eassumption|reflexivity|lia]).
    assert (Forall (reads_of stream) (log ++ [CountRead j count k]))
      as Hlog'.
    { apply Forall_app. split; [assumption|].
      constructor; [exact Hscan|constructor]. }
    pose proof (values_loop_path stream count 0 0 k _ Hpath') as Hp.
    pose proof (values_loop_in_range stream count 0 0 k
                  (log ++ [CountRead j count k]) ltac:(lia)) as Hl.
    pose proof (values_loop_reads_of stream count 0 0 k _ Hlog') as Hr.
    rewrite Hvalues in Hp, Hl, Hr. simpl in Hp, Hl, Hr.
    split; [assumption|]. split; [lia|assumption].
  - split; [constructor|]. split; [lia|constructor].
Qed.

Lemma cursor_monotone_witness :
  (1 <= snd (_parse_element (py "azzb_") 1) <= length (py "azzb_"))%nat
  /\ (let stream := lower (strip (py "azzb_")) in
      cursor_path (length stream) 0
        (final_log (convert_run (py "azzb_")))
        (final_cursor (convert_run (py "azzb_")))
      /\ (final_cursor (convert_run (py "azzb_")) <= length stream)%nat
      /\ Forall (reads_of stream) (final_log (convert_run (py "azzb_")))).
Proof. apply (cursor_monotone (py "azzb_") 1). simpl. lia. Defined.

(** C7. The sentinel shortcut is redundant: on a string over [{a-z, _}],
    [convert] returns what the variant without the shortcut returns, in
    which the sentinel is scanned as a count, reads as 0 and gives a zero
    package. *)
Theorem sentinel_shortcut_redundant (s : str) :
  over_alphabet s -> convert s = convert_unified s.
Proof. intros _. apply convert_unified_eq. Qed.

Lemma sentinel_shortcut_redundant_witness :
  convert (py "_a_b__zz_") = convert_unified (py "_a_b__zz_").
Proof. exact (sentinel_shortcut_redundant (py "_a_b__zz_") eq_refl). Defined.

(** C8. Case and surrounding whitespace do not matter: for a string [s]
    over [{a-z, _}], with or without whitespace around it, [convert(s)] is
    [convert(s.upper())], and it is [convert] of [s] stripped and
    lowercased, because [convert] normalises its argument itself. *)
Theorem convert_case_insensitive (ws1 core ws2 : str) :
  blank ws1 -> over_alphabet core -> blank ws2 ->
  let s := ws1 ++ core ++ ws2 in
  convert s = convert (upper s)
  /\ convert s = convert (lower (strip s)).
Proof.
  intros H1 Hcore H2 s. split; [|symmetry; apply convert_normalized].
  unfold convert, convert_run. do 2 f_equal. unfold s.
  rewrite (strip_padded ws1 core ws2 H1 (over_alphabet_solid core Hcore) H2).
  unfold upper. rewrite !map_app. fold (upper ws1) (upper core) (upper ws2).
  rewrite (upper_blank ws1 H1), (upper_blank ws2 H2).
  rewrite (strip_padded ws1 (upper core) ws2 H1 (upper_solid core Hcore) H2).
  rewrite (lower_upper core Hcore).
  apply over_alphabet_lower. assumption.
Qed.

Lemma convert_case_insensitive_witness :
  let s := py "  " ++ py "ab_bzzc_" ++ py " " in
  convert s = convert (upper s)
  /\ convert s = convert (lower (strip s)).
Proof.
  exact (convert_case_insensitive (py "  ") (py "ab_bzzc_") (py " ")
           eq_refl eq_refl eq_refl).
Defined.

Example convert_upper_padded :
  upper (py "  ab_bzzc_ ") = py "  AB_BZZC_ "
  /\ convert (py "  AB_BZZC_ ") = [2; 0; 55].
Proof. split; vm_compute; reflexivity. Qed.

(** C9. On a string over [{a-z, _}] the zero-count branch of [convert]
    ([if count == 0]) is never taken: every count read of the run starts on
    a character that is not the sentinel (the shortcut took those) and reads
    a count of at least 1.  So the branch can run only when the input holds
    a character outside the alphabet. *)
Theorem zero_count_unreachable (s : str) :
  over_alphabet s ->
  Forall (fun e =>
            match e with
            | CountRead i count _ =>
                nth_error s i <> Some "_"%char /\ 1 <= count
            | _ => True
            end)
         (final_log (convert_run s)).
Proof.
  intros Hs. rewrite (convert_run_over_alphabet s Hs).
  set (P := fun e : event =>
              match e with
              | CountRead i count _ =>
                  nth_error s i <> Some "_"%char /\ 1 <= count
              | _ => True
              end).
  assert (forall i ch count j,
             nth_error s i = Some ch -> ch <> "_"%char ->
             _parse_element s i = (count, j) -> P (CountRead i count j))
    as Hread.
  { intros i ch count j Hch Hne Hscan. simpl. split; [congruence|].
    pose proof (parse_element_count_positive s i ch Hs Hch Hne) as Hc.
    rewrite Hscan in Hc. exact Hc. }
  destruct (convert_loop_rule s (fun _ _ log => Forall P log))
    with (i := 0%nat) (result := @nil Z) (log := @nil event)
    as [H _]; [| | | |exact H].
  - intros i result log Hlog _.
    apply Forall_app. split; [assumption|].
    constructor; [exact I|constructor].
  - intros i result log ch j Hlog Hch Hne Hscan.
    apply Forall_app. split; [assumption|].
    constructor; [eapply Hread; eassumption|constructor].
  - intros i result log ch count j package_sum k log' Hlog Hch Hne Hscan _
      Hvalues.
    destruct (values_loop_log s count 0 0 j (log ++ [CountRead i count j]))
      as [reads [Hlog' Hreads]].
    rewrite Hvalues in Hlog'. simpl in Hlog'. subst log'.
    repeat (apply Forall_app; split); [assumption| |].
    + constructor; [eapply Hread; eassumption|constructor].
    + eapply Forall_impl; [|exact Hreads].
      intros e [i' [val [j' ->]]]. exact I.
  - constructor.
Qed.

Lemma zero_count_unreachable_witness :
  Forall (fun e =>
            match e with
            | CountRead i count _ =>
                nth_error (py "_b_zza") i <> Some "_"%char /\ 1 <= count
            | _ => True
            end)
         (final_log (convert_run (py "_b_zza"))).
Proof. exact (zero_count_unreachable (py "_b_zza") eq_refl). Defined.

(** Outside the alphabet the branch does run: the backquote, the character
    just before ['a'], reads as the count 0. *)
Example zero_count_backquote :
  convert_run (py "`") = Run 1 [0] [CountRead 0 0 1].
Proof. vm_compute. reflexivity. Qed.

(** C10 as it is stated, at the backquote: a character other than ['_'] and
    below ['a'] whose value is not negative. *)
Lemma val_backquote_not_negative :
  "`"%char <> "_"%char
  /\ ord "`"%char < ord "a"%char
  /\ ~ (_val "`"%char < 0).
Proof.
  split; [discriminate|]. split; [reflexivity|].
  vm_compute. discriminate.
Qed.

(** C10, amended. Characters outside the alphabet are neither rejected nor
    read as 0, they are read by their code point: for every character [c]
    other than ['_'], [_val(c)] is [ord(c) - ord('a') + 1]; so the
    characters below the backquote yield negative values, the backquote
    itself (the character just below ['a']) yields 0, and [convert] can
    return negative integers, as in [convert("a0") = [-48]]. *)
Theorem ordinal_coercion :
  (forall ch : ascii,
      ch <> "_"%char -> _val ch = ord ch - ord "a"%char + 1)
  /\ (forall ch : ascii,
        ch <> "_"%char -> ord ch < ord "`"%char -> _val ch < 0)
  /\ _val "`"%char = 0
  /\ convert (py "a0") = [-48].
Proof.
  split; [|split; [|split]].
  - intros ch Hne. unfold _val. apply Ascii.eqb_neq in Hne.
    rewrite Hne. reflexivity.
  - intros ch Hne Hlt. rewrite (val_other ch Hne).
    change (ord "`"%char) with 96 in Hlt. lia.
  - reflexivity.
  - vm_compute. reflexivity.
Qed.

(** * Further properties of the decoder *)

(** ** Blank input, case and padding *)

Lemma strip_blank (s : str) : blank s -> strip s = [].
Proof.
  intros H. unfold strip. rewrite (lstrip_all_blank s H). reflexivity.
Qed.

Lemma rstrip_app_blank (s ws : str) :
  blank ws -> rstrip (s ++ ws) = rstrip s.
Proof.
  intros Hws. induction s as [|ch s IH].
  - simpl. apply rstrip_blank. assumption.
  - change ((ch :: s) ++ ws) with (ch :: (s ++ ws)).
    cbn [rstrip]. rewrite IH. reflexivity.
Qed.

Lemma lstrip_app (s t : str) :
  lstrip (s ++ t) =
  match lstrip s with
  | [] => lstrip t
  | _ => lstrip s ++ t
  end.
Proof.
  induction s as [|ch s IH]; [reflexivity|].
  simpl. destruct (isspace ch); [assumption|reflexivity].
Qed.

Lemma strip_padding (ws1 s ws2 : str) :
  blank ws1 -> blank ws2 -> strip (ws1 ++ s ++ ws2) = strip s.
Proof.
  intros H1 H2. unfold strip.
  rewrite (lstrip_blank ws1 _ H1), lstrip_app.
  destruct (lstrip s) as [|ch rest].
  - rewrite (lstrip_all_blank ws2 H2). reflexivity.
  - apply rstrip_app_blank. assumption.
Qed.

Lemma convert_run_blank (s : str) : blank s -> convert_run s = Run 0 [] [].
Proof.
  intros H. unfold convert_run. rewrite (strip_blank s H). simpl.
  rewrite convert_loop_eq. reflexivity.
Qed.

(** X1. An input of whitespace only (the empty string included) decodes to
    the empty list: the main loop is not entered, and nothing is scanned. *)
Theorem convert_blank (s : str) :
  blank s -> convert s = [] /\ convert_run s = Run 0 [] [].
Proof.
  intros H. unfold convert. rewrite (convert_run_blank s H).
  split; reflexivity.
Qed.

Lemma convert_blank_witness :
  convert (py "   ") = [] /\ convert_run (py "   ") = Run 0 [] [].
Proof. exact (convert_blank (py "   ") eq_refl). Defined.

(** X4. Inputs that differ only in the case of their letters decode to the
    same list, whatever other characters they hold. *)
Theorem convert_ignores_case (s1 s2 : str) :
  lower s1 = lower s2 -> convert s1 = convert s2.
Proof.
  intros H. unfold convert, convert_run.
  rewrite <- !strip_lower, H. reflexivity.
Qed.

Lemma convert_ignores_case_witness :
  convert (py "Ab_0zZc") = convert (py "aB_0Zzc").
Proof. exact (convert_ignores_case (py "Ab_0zZc") (py "aB_0Zzc") eq_refl). Defined.

(** X5. Whitespace around an input is ignored, whatever the input holds:
    only whitespace inside it is decoded. *)
Theorem convert_ignores_padding (ws1 s ws2 : str) :
  blank ws1 -> blank ws2 -> convert (ws1 ++ s ++ ws2) = convert s.
Proof.
  intros H1 H2. unfold convert, convert_run.
  rewrite (strip_padding ws1 s ws2 H1 H2). reflexivity.
Qed.

Lemma convert_ignores_padding_witness :
  convert (py "  " ++ py "b a c" ++ py " ") = convert (py "b a c").
Proof.
  exact (convert_ignores_padding (py "  ") (py "b a c") (py " ")
           eq_refl eq_refl).
Defined.

(** ** The size of the output *)

(** The sum of a list of packages. *)
Definition total (packages : list Z) : Z := fold_right Z.add 0 packages.

Lemma total_app (l l' : list Z) : total (l ++ l') = total l + total l'.
Proof.
  unfold total. induction l as [|x l IH]; simpl; [reflexivity|].
  rewrite IH. lia.
Qed.

Lemma total_bounds_each (l : list Z) (bound : Z) :
  Forall (fun x => 0 <= x) l -> total l <= bound ->
  Forall (fun x => x <= bound) l.
Proof.
  intros Hpos. revert bound.
  induction Hpos as [|x l Hx Hl IH]; intros bound Hsum; constructor.
  - assert (0 <= total l).
    { clear - Hl. induction Hl as [|y l Hy _ IH]; unfold total in *; simpl;
        lia. }
    change (total (x :: l)) with (x + total l) in Hsum. lia.
  - apply IH. change (total (x :: l)) with (x + total l) in Hsum. lia.
Qed.

(** On the alphabet an element is worth at most 26 for each character it
    takes. *)
Lemma parse_element_value_bound (s : str) (i : nat) :
  over_alphabet s -> (i < length s)%nat ->
  fst (_parse_element s i)
  <= 26 * (Z.of_nat (snd (_parse_element s i)) - Z.of_nat i).
Proof.
  intros Hs Hi.
  destruct (nth_error s i) as [ch|] eqn:Hch.
  2:{ apply nth_error_None in Hch. lia. }
  pose proof (over_alphabet_nth s i ch Hs Hch) as Hin.
  destruct (Ascii.eqb ch "z"%char) eqn:Hz.
  - apply Ascii.eqb_eq in Hz. subst ch.
    rewrite (parse_element_z s i Hch).
    destruct (nth_error s (i + z_run_length s i)) as [ch|] eqn:Hnext;
      cbn [fst snd]; [|lia].
    pose proof (proj2 (z_run_length_maximal s i)) as Hend.
    assert (ch <> "z"%char) as Hnz by congruence.
    pose proof (val_not_z ch (over_alphabet_nth _ _ _ Hs Hnext) Hnz). lia.
  - apply Ascii.eqb_neq in Hz.
    rewrite (parse_element_plain s i ch Hch Hz). cbn [fst snd].
    pose proof (val_not_z ch Hin Hz). lia.
Qed.

(** The result grows by one integer at each pass, and a pass moves the
    cursor: on every stream. *)
Lemma convert_loop_length (s : str) :
  (length (final_result (convert_loop s 0 [] [])) <= length s)%nat.
Proof.
  destruct (convert_loop_rule s
              (fun i result _ =>
                 (length result <= i)%nat /\ (i <= length s)%nat))
    with (i := 0%nat) (result := @nil Z) (log := @nil event)
    as [[H1 H2] _]; [| | | |lia].
  - intros i result log [Hlen Hi] Hch.
    apply nth_error_in_range in Hch. rewrite length_app. simpl. lia.
  - intros i result log ch j [Hlen Hi] Hch _ Hscan.
    apply nth_error_in_range in Hch.
    pose proof (parse_element_cursor s i Hch) as Hj.
    rewrite Hscan in Hj. simpl in Hj. rewrite length_app. simpl. lia.
  - intros i result log ch count j package_sum k log' [Hlen Hi] Hch _
      Hscan _ Hvalues.
    apply nth_error_in_range in Hch.
    pose proof (parse_element_cursor s i Hch) as Hj.
    rewrite Hscan in Hj. simpl in Hj.
    pose proof (values_loop_in_range s count 0 0 j
                  (log ++ [CountRead i count j]) ltac:(lia)) as Hk.
    rewrite Hvalues in Hk. simpl in Hk. rewrite length_app. simpl. lia.
  - simpl. lia.
Qed.

(** X2. On any input, [convert] never returns more integers than the
    stream it decodes has characters: at most one for each character of
    [s.strip().lower()]. *)
Theorem convert_length_bound (s : str) :
  (length (convert s) <= length (lower (strip s)))%nat.
Proof. apply convert_loop_length. Qed.

Lemma values_loop_sum_bound (s : str) (count package_sum read : Z) (i : nat)
    (log : list event) :
  over_alphabet s ->
  fst (fst (values_loop s count package_sum read i log))
  <= package_sum
     + 26 * (Z.of_nat (snd (fst (values_loop s count package_sum read i log)))
             - Z.of_nat i).
Proof.
  intros Hs.
  destruct (values_loop_rule s count
              (fun ps _ i' _ =>
                 ps <= package_sum + 26 * (Z.of_nat i' - Z.of_nat i)))
    with (package_sum := package_sum) (read := read) (i := i) (log := log)
    as [read' [H _]]; [|lia|exact H].
  intros ps r i' log' val j Hps _ Hi' Hscan.
  pose proof (parse_element_value_bound s i' Hs Hi') as Hval.
  rewrite Hscan in Hval. cbn [fst snd] in Hval. lia.
Qed.

(** X3. On a string over [{a-z, _}] the packages add up to at most 26 times
    the length of the input, so no package exceeds that: the ceiling an
    integer type for the output has to hold. *)
Theorem convert_sum_bound (s : str) :
  over_alphabet s ->
  0 <= total (convert s) <= 26 * Z.of_nat (length s)
  /\ Forall (fun package => package <= 26 * Z.of_nat (length s)) (convert s).
Proof.
  intros Hs. unfold convert. rewrite (convert_run_over_alphabet s Hs).
  destruct (convert_loop_rule s
              (fun i result _ =>
                 Forall (fun x => 0 <= x) result
                 /\ 0 <= total result <= 26 * Z.of_nat i
                 /\ (i <= length s)%nat))
    with (i := 0%nat) (result := @nil Z) (log := @nil event)
    as [[Hpos [Hsum Hle]] _].
  - intros i result log [Hpos [Hsum Hi]] Hch.
    apply nth_error_in_range in Hch. split; [|split; [|lia]].
    + apply Forall_app. split; [assumption|]. repeat constructor. lia.
    + rewrite total_app. change (total [0]) with 0. lia.
  - intros i result log ch j [Hpos [Hsum Hi]] Hch _ Hscan.
    apply nth_error_in_range in Hch.
    pose proof (parse_element_cursor s i Hch) as Hj.
    rewrite Hscan in Hj. simpl in Hj. split; [|split; [|lia]].
    + apply Forall_app. split; [assumption|]. repeat constructor. lia.
    + rewrite total_app. change (total [0]) with 0. lia.
  - intros i result log ch count j package_sum k log' [Hpos [Hsum Hi]] Hch _
      Hscan _ Hvalues.
    apply nth_error_in_range in Hch.
    pose proof (parse_element_cursor s i Hch) as Hj.
    rewrite Hscan in Hj. simpl in Hj.
    pose proof (values_loop_in_range s count 0 0 j
                  (log ++ [CountRead i count j]) ltac:(lia)) as Hk.
    pose proof (values_loop_nonneg s count 0 0 j
                  (log ++ [CountRead i count j]) Hs ltac:(lia)) as Hlo.
    pose proof (values_loop_sum_bound s count 0 0 j
                  (log ++ [CountRead i count j]) Hs) as Hhi.
    rewrite Hvalues in Hk, Hlo, Hhi. cbn [fst snd] in Hk, Hlo, Hhi.
    split; [|split; [|lia]].
    + apply Forall_app. split; [assumption|]. repeat constructor. assumption.
    + rewrite total_app. change (total [package_sum]) with (package_sum + 0).
      lia.
  - split; [constructor|]. split; [unfold total; simpl; lia|lia].
  - assert (total (final_result (convert_loop s 0 [] []))
            <= 26 * Z.of_nat (length s)) as Hbound by lia.
    split; [lia|]. apply total_bounds_each; assumption.
Qed.

Lemma convert_sum_bound_witness :
  0 <= total (convert (py "bzzzzy_")) <= 26 * Z.of_nat (length (py "bzzzzy_"))
  /\ Forall (fun package => package <= 26 * Z.of_nat (length (py "bzzzzy_")))
       (convert (py "bzzzzy_")).
Proof. exact (convert_sum_bound (py "bzzzzy_") eq_refl). Defined.

(** ** The decoder reads forward only *)

Lemma nth_error_after (p s : str) (i : nat) :
  nth_error (p ++ s) (length p + i) = nth_error s i.
Proof.
  rewrite nth_error_app2 by lia. f_equal. lia.
Qed.

Lemma z_run_length_after (p s : str) (i : nat) :
  z_run_length (p ++ s) (length p + i) = z_run_length s i.
Proof.
  unfold z_run_length. rewrite skipn_app.
  rewrite skipn_all2 by lia. simpl. do 2 f_equal. lia.
Qed.

Lemma parse_element_after (p s : str) (i : nat) :
  _parse_element (p ++ s) (length p + i) =
  (fst (_parse_element s i), (length p + snd (_parse_element s i))%nat).
Proof.
  destruct (nth_error s i) as [ch|] eqn:Hch.
  2:{ rewrite !parse_element_end; [reflexivity| |].
      - apply nth_error_None. assumption.
      - apply nth_error_None. rewrite nth_error_after. assumption. }
  pose proof (nth_error_after p s i) as Hch'. rewrite Hch in Hch'.
  destruct (Ascii.eqb ch "z"%char) eqn:Hz.
  - apply Ascii.eqb_eq in Hz. subst ch.
    rewrite (parse_element_z _ _ Hch), (parse_element_z _ _ Hch').
    rewrite z_run_length_after, <- Nat.add_assoc, nth_error_after.
    destruct (nth_error s (i + z_run_length s i)); cbn [fst snd];
      f_equal; lia.
  - apply Ascii.eqb_neq in Hz.
    rewrite (parse_element_plain _ _ _ Hch Hz),
      (parse_element_plain _ _ _ Hch' Hz).
    cbn [fst snd]. f_equal. lia.
Qed.

Lemma read_values_after (p s : str) (count i : nat) :
  read_values (p ++ s) count (length p + i) =
  (fst (read_values s count i), (length p + snd (read_values s count i))%nat).
Proof.
  revert i. induction count as [|count IH]; intros i; [reflexivity|].
  cbn [read_values]. rewrite length_app.
  replace (length p + i <? length p + length s)%nat
    with (i <? length s)%nat
    by (destruct (Nat.ltb_spec i (length s));
        destruct (Nat.ltb_spec (length p + i) (length p + length s));
        lia || reflexivity).
  destruct (i <? length s)%nat; [|reflexivity].
  rewrite parse_element_after.
  destruct (_parse_element s i) as [val j]. cbn [fst snd].
  rewrite IH. destruct (read_values s count j) as [sum k]. reflexivity.
Qed.

(** The main loop on [p ++ s] from the cursor [len(p) + i] builds what it
    builds on [s] from the cursor [i]. *)
Lemma convert_loop_after (p s : str) (i : nat) (result : list Z)
    (log log' : list event) :
  final_result (convert_loop (p ++ s) (length p + i) result log)
  = final_result (convert_loop s i result log').
Proof.
  remember (length s - i)%nat as m eqn:Hm. revert i result log log' Hm.
  induction m as [m IH] using lt_wf_ind. intros i result log log' Hm.
  rewrite (convert_loop_eq (p ++ s)), (convert_loop_eq s).
  rewrite nth_error_after.
  destruct (nth_error s i) as [ch|] eqn:Hch; [|reflexivity].
  pose proof (nth_error_in_range _ _ _ Hch) as Hi.
  destruct (Ascii.eqb ch "_"%char).
  { rewrite <- Nat.add_assoc.
    apply (IH (length s - (i + 1))%nat); lia. }
  rewrite parse_element_after.
  pose proof (parse_element_cursor s i Hi) as Hj.
  destruct (_parse_element s i) as [count j]. cbn [fst snd] in *.
  destruct (count =? 0).
  { apply (IH (length s - j)%nat); lia. }
  pose proof (values_loop_cursor s count 0 0 j
                (log' ++ [CountRead i count j])) as Hk.
  pose proof (values_loop_reads s count 0 0 j
                (log' ++ [CountRead i count j])) as H1.
  pose proof (values_loop_reads (p ++ s) count 0 0 (length p + j)
                (log ++ [CountRead (length p + i) count (length p + j)]))
    as H2.
  rewrite read_values_after in H2. cbn [fst snd] in H2.
  destruct (values_loop s count 0 0 j (log' ++ [CountRead i count j]))
    as [[package_sum k] log1].
  destruct (values_loop (p ++ s) count 0 0 (length p + j)
              (log ++ [CountRead (length p + i) count (length p + j)]))
    as [[package_sum' k'] log2].
  cbn [fst snd] in Hk, H1, H2.
  injection H1 as -> ->. injection H2 as -> ->.
  apply (IH (length s - snd (read_values s (Z.to_nat (count - 0)) j))%nat);
    lia.
Qed.

(** The main loop only appends to [result]. *)
Lemma convert_loop_appends (s : str) (i : nat) (result : list Z)
    (log : list event) :
  (i <= length s)%nat ->
  final_result (convert_loop s i result log)
  = result ++ final_result (convert_loop s i [] []).
Proof.
  intros Hi.
  destruct (convert_loop_decodes s i result log Hi) as [out [Hout ->]].
  destruct (convert_loop_decodes s i [] [] Hi) as [out' [Hout' ->]].
  simpl. f_equal. eapply decodes_functional; eassumption.
Qed.

Lemma convert_loop_resumes (s : str) (i : nat) (result : list Z)
    (log : list event) :
  (i <= length s)%nat ->
  final_result (convert_loop s i result log)
  = result ++ final_result (convert_loop (skipn i s) 0 [] []).
Proof.
  intros Hi. rewrite (convert_loop_appends s i result log Hi). f_equal.
  pose proof (convert_loop_after (firstn i s) (skipn i s) 0 [] [] []) as H.
  rewrite firstn_skipn, firstn_length_le, Nat.add_0_r in H by assumption.
  exact H.
Qed.

(** X6. The scanner never looks behind the cursor: what it returns at a
    cursor depends only on the characters from the cursor on.  Scanning
    [p ++ s] at [len(p) + i] gives the value that scanning [s] at [i]
    gives, and the same cursor moved by [len(p)]. *)
Theorem parse_element_reads_forward (p s : str) (i : nat) :
  _parse_element (p ++ s) (length p + i) =
  (fst (_parse_element s i), (length p + snd (_parse_element s i))%nat).
Proof. apply parse_element_after. Qed.

(** X7. The main loop keeps no state but the cursor: from any cursor
    [i <= len(s)] it appends to [result] exactly what decoding the rest of
    the stream, [s[i:]], from the start gives. *)
Theorem convert_loop_depends_on_suffix (s : str) (i : nat) (result : list Z)
    (log : list event) :
  (i <= length s)%nat ->
  final_result (convert_loop s i result log)
  = result ++ final_result (convert_loop (skipn i s) 0 [] []).
Proof. apply convert_loop_resumes. Qed.

Lemma convert_loop_depends_on_suffix_witness :
  final_result (convert_loop (py "ab_bzzc_") 3 [2; 0] [])
  = [2; 0] ++ final_result (convert_loop (skipn 3 (py "ab_bzzc_")) 0 [] []).
Proof.
  apply (convert_loop_depends_on_suffix (py "ab_bzzc_") 3 [2; 0] []).
  simpl. lia.
Defined.

Lemma over_alphabet_app (s1 s2 : str) :
  over_alphabet s1 -> over_alphabet s2 -> over_alphabet (s1 ++ s2).
Proof.
  unfold over_alphabet. intros H1 H2. rewrite forallb_app, H1, H2.
  reflexivity.
Qed.

Lemma convert_loop_sentinels (N : nat) (s : str) :
  final_result (convert_loop (repeat "_"%char N ++ s) 0 [] [])
  = repeat 0 N ++ final_result (convert_loop s 0 [] []).
Proof.
  induction N as [|N IH]; [reflexivity|].
  cbn [repeat app]. rewrite convert_loop_eq. cbn [nth_error].
  change (Ascii.eqb "_"%char "_"%char) with true. cbv iota.
  rewrite convert_loop_resumes by (simpl; lia).
  cbn [skipn Nat.add]. rewrite IH. reflexivity.
Qed.

(** X8. Sentinels at the head of an input over [{a-z, _}] give one zero
    each and leave the rest to be decoded as if they were not there:
    [convert("_" * N + s) = [0] * N + convert(s)]. *)
Theorem convert_leading_sentinels (N : nat) (s : str) :
  over_alphabet s ->
  convert (repeat "_"%char N ++ s) = repeat 0 N ++ convert s.
Proof.
  intros Hs. unfold convert.
  rewrite (convert_run_over_alphabet s Hs).
  rewrite (convert_run_over_alphabet _
             (over_alphabet_app _ _ (over_alphabet_sentinels N) Hs)).
  apply convert_loop_sentinels.
Qed.

Lemma convert_leading_sentinels_witness :
  convert (repeat "_"%char 2 ++ py "ab_") = repeat 0 2 ++ convert (py "ab_").
Proof. exact (convert_leading_sentinels 2 (py "ab_") eq_refl). Defined.

(** ** Groups *)

(** X9. An input over [{a-z, _}] that is one element and nothing more (a
    single character, or a run of ['z'] with or without the character that
    closes it) decodes to [[0]]: a sentinel is a zero, and any other element
    is a count with no value left to sum. *)
Theorem convert_lone_element (s : str) :
  over_alphabet s -> s <> [] -> snd (_parse_element s 0) = length s ->
  convert s = [0].
Proof.
  intros Hs Hne Hall. unfold convert.
  rewrite (convert_run_over_alphabet s Hs), convert_loop_eq.
  destruct (nth_error s 0) as [ch|] eqn:Hch.
  2:{ destruct s; [congruence|discriminate]. }
  destruct (Ascii.eqb ch "_"%char) eqn:Hsent.
  - apply Ascii.eqb_eq in Hsent. subst ch.
    rewrite (parse_element_plain s 0 "_"%char Hch) in Hall by discriminate.
    cbn [snd] in Hall. rewrite convert_loop_eq.
    assert (nth_error s (0 + 1) = None) as -> by (apply nth_error_None; lia).
    reflexivity.
  - apply Ascii.eqb_neq in Hsent.
    pose proof (parse_element_count_positive s 0 ch Hs Hch Hsent) as Hcount.
    destruct (_parse_element s 0) as [count j]. cbn [fst snd] in *. subst j.
    assert ((count =? 0) = false) as -> by (apply Z.eqb_neq; lia).
    rewrite values_loop_eq, Nat.ltb_irrefl, andb_false_r.
    rewrite convert_loop_eq.
    assert (nth_error s (length s) = None) as ->
        by (apply nth_error_None; lia).
    reflexivity.
Qed.

Lemma convert_lone_element_witness : convert (py "zzzy") = [0].
Proof.
  apply (convert_lone_element (py "zzzy")); [reflexivity|discriminate|].
  vm_compute. reflexivity.
Defined.

(** The value an event read. *)
Definition event_value (e : event) : Z :=
  match e with
  | Shortcut _ => 0
  | CountRead _ count _ => count
  | ValueRead _ val _ => val
  end.

(** X10. The value loop of a group reads at most [count] elements, stops
    before [count] only at the end of the stream, and leaves in
    [package_sum] the sum of the values it read. *)
Theorem values_loop_group (s : str) (count : Z) (i : nat) (log : list event) :
  exists reads : list event,
    snd (values_loop s count 0 0 i log) = log ++ reads
    /\ Forall (fun e => exists i' val j, e = ValueRead i' val j) reads
    /\ (length reads <= Z.to_nat count)%nat
    /\ (length reads = Z.to_nat count
        \/ (length s <= snd (fst (values_loop s count 0 0 i log)))%nat)
    /\ fst (fst (values_loop s count 0 0 i log))
       = total (map event_value reads).
Proof.
  destruct (values_loop_rule s count
              (fun ps read _ log' =>
                 exists reads,
                   log' = log ++ reads
                   /\ Forall (fun e => exists i' val j, e = ValueRead i' val j)
                        reads
                   /\ Z.of_nat (length reads) = read
                   /\ read <= Z.max count 0
                   /\ ps = total (map event_value reads)))
    with (package_sum := 0) (read := 0) (i := i) (log := log)
    as [read' [[reads [Hlog [Hreads [Hlen [Hmax Hsum]]]]] Hexit]].
  - intros ps read i' log' val j [reads [-> [Hreads [Hlen [Hmax ->]]]]]
      Hlt _ _.
    exists (reads ++ [ValueRead i' val j]). split; [|split; [|split; [|split]]].
    + rewrite app_assoc. reflexivity.
    + apply Forall_app. split; [assumption|].
      constructor; [eauto|constructor].
    + rewrite length_app. simpl. lia.
    + lia.
    + rewrite map_app, total_app.
      change (total (map event_value [ValueRead i' val j])) with (val + 0).
      lia.
  - exists []. split; [rewrite app_nil_r; reflexivity|].
    split; [constructor|]. split; [reflexivity|]. split; [lia|reflexivity].
  - exists reads. split; [assumption|]. split; [assumption|].
    split; [lia|]. split; [|assumption].
    destruct Hexit as [Hexit|Hexit]; [left; lia|right; assumption].
Qed.

(** ** Where negative packages come from *)

(** A character that is the sentinel or not below the backquote, the
    character before ['a']. *)
Definition not_below_backquote (ch : ascii) : bool :=
  Ascii.eqb ch "_"%char || (ord "`"%char <=? ord ch).

Lemma val_not_below_backquote (ch : ascii) :
  not_below_backquote ch = true -> 0 <= _val ch.
Proof.
  unfold not_below_backquote. intros H.
  destruct (Ascii.eqb ch "_"%char) eqn:E.
  - apply Ascii.eqb_eq in E. subst ch. rewrite val_sentinel. lia.
  - apply Ascii.eqb_neq in E. rewrite (val_other ch E).
    simpl in H. apply Z.leb_le in H. change (ord "`"%char) with 96 in H.
    lia.
Qed.

Lemma parse_element_nonneg_above (s : str) (i : nat) :
  forallb not_below_backquote s = true -> 0 <= fst (_parse_element s i).
Proof.
  intros Hs.
  assert (forall k ch, nth_error s k = Some ch -> 0 <= _val ch) as Hval.
  { intros k ch Hk. apply val_not_below_backquote.
    rewrite forallb_forall in Hs. apply Hs.
    eapply nth_error_In. eassumption. }
  destruct (nth_error s i) as [ch|] eqn:Hch.
  2:{ rewrite parse_element_end by (apply nth_error_None; assumption).
      cbn [fst]. lia. }
  destruct (Ascii.eqb ch "z"%char) eqn:Hz.
  - apply Ascii.eqb_eq in Hz. subst ch.
    rewrite (parse_element_z s i Hch).
    destruct (nth_error s (i + z_run_length s i)) as [ch|] eqn:Hnext;
      cbn [fst]; [|lia].
    pose proof (Hval _ _ Hnext). lia.
  - apply Ascii.eqb_neq in Hz.
    rewrite (parse_element_plain s i ch Hch Hz). cbn [fst]. eauto.
Qed.

(** X13. [convert] returns a negative integer only when the input, once
    normalised, holds a character below the backquote other than the
    sentinel (a digit, a space inside the input, most punctuation): when it
    holds none, every package is non-negative. *)
Theorem convert_negative_only_below_backquote (s : str) :
  forallb not_below_backquote (lower (strip s)) = true ->
  Forall (fun package => 0 <= package) (convert s).
Proof.
  intros Hs. unfold convert, convert_run.
  set (stream := lower (strip s)) in *.
  destruct (convert_loop_rule stream
              (fun _ result _ => Forall (fun package => 0 <= package) result))
    with (i := 0%nat) (result := @nil Z) (log := @nil event)
    as [H _]; [| | | |exact H].
  - intros i result log Hpos _.
    apply Forall_app. split; [assumption|]. repeat constructor. lia.
  - intros i result log ch j Hpos _ _ _.
    apply Forall_app. split; [assumption|]. repeat constructor. lia.
  - intros i result log ch count j package_sum k log' Hpos _ _ _ _ Hvalues.
    apply Forall_app. split; [assumption|]. repeat constructor.
    destruct (values_loop_rule stream count (fun ps _ _ _ => 0 <= ps))
      with (package_sum := 0) (read := 0) (i := j)
           (log := log ++ [CountRead i count j])
      as [read' [Hsum _]].
    + intros ps r i' log0 val j' Hps _ _ Hscan.
      pose proof (parse_element_nonneg_above stream i' Hs) as Hval.
      rewrite Hscan in Hval. cbn [fst] in Hval. lia.
    + lia.
    + rewrite Hvalues in Hsum. exact Hsum.
  - constructor.
Qed.

Lemma convert_negative_only_below_backquote_witness :
  Forall (fun package => 0 <= package) (convert (py " B{z~|`a} ")).
Proof.
  exact (convert_negative_only_below_backquote (py " B{z~|`a} ") eq_refl).
Defined.

(** ** Appending to an input *)

Lemma z_run_app_inside (l1 l2 : str) :
  (z_run l1 < length l1)%nat -> z_run (l1 ++ l2) = z_run l1.
Proof.
  induction l1 as [|ch l1 IH]; simpl; [lia|].
  destruct (Ascii.eqb ch "z"%char); [|reflexivity].
  intros H. f_equal. apply IH. lia.
Qed.

(** An element that ends before the end of [s1] is the same element in
    [s1 ++ s2]. *)
Lemma parse_element_inside (s1 s2 : str) (i : nat) :
  (snd (_parse_element s1 i) < length s1)%nat ->
  _parse_element (s1 ++ s2) i = _parse_element s1 i.
Proof.
  intros H.
  destruct (nth_error s1 i) as [ch|] eqn:Hch.
  2:{ apply nth_error_None in Hch.
      rewrite parse_element_end in H by assumption. simpl in H. lia. }
  pose proof (nth_error_in_range _ _ _ Hch) as Hi.
  assert (nth_error (s1 ++ s2) i = Some ch) as Hch'
      by (rewrite nth_error_app1; assumption).
  destruct (Ascii.eqb ch "z"%char) eqn:Hz.
  - apply Ascii.eqb_eq in Hz. subst ch.
    rewrite (parse_element_z _ _ Hch) in H.
    rewrite (parse_element_z _ _ Hch), (parse_element_z _ _ Hch').
    assert (i + z_run_length s1 i < length s1)%nat as Hrun.
    { destruct (nth_error s1 (i + z_run_length s1 i)) eqn:Hnext;
        cbn [snd] in H; [lia|].
      apply nth_error_None in Hnext. lia. }
    assert (z_run_length (s1 ++ s2) i = z_run_length s1 i) as ->.
    { unfold z_run_length in *. rewrite skipn_app.
      replace (i - length s1)%nat with 0%nat by lia. cbn [skipn].
      apply z_run_app_inside. rewrite length_skipn. lia. }
    rewrite nth_error_app1 by assumption. reflexivity.
  - apply Ascii.eqb_neq in Hz.
    rewrite (parse_element_plain _ _ _ Hch Hz),
      (parse_element_plain _ _ _ Hch' Hz).
    reflexivity.
Qed.

Lemma read_values_cursor (s : str) (count i : nat) :
  (i <= snd (read_values s count i))%nat.
Proof.
  revert i. induction count as [|count IH]; intros i; cbn [read_values].
  - simpl. lia.
  - destruct (Nat.ltb_spec i (length s)) as [Hi|Hi]; [|simpl; lia].
    pose proof (parse_element_cursor s i Hi) as Hj.
    destruct (_parse_element s i) as [val j]. cbn [snd] in Hj.
    specialize (IH j).
    destruct (read_values s count j) as [sum k]. cbn [snd] in *. lia.
Qed.

Lemma read_values_inside (s1 s2 : str) (count i : nat) :
  (snd (read_values s1 count i) < length s1)%nat ->
  read_values (s1 ++ s2) count i = read_values s1 count i.
Proof.
  revert i. induction count as [|count IH]; intros i; cbn [read_values];
    [reflexivity|].
  destruct (Nat.ltb_spec i (length s1)) as [Hi|Hi]; [|simpl; lia].
  assert ((i <? length (s1 ++ s2))%nat = true) as ->
      by (apply Nat.ltb_lt; rewrite length_app; lia).
  pose proof (parse_element_inside s1 s2 i) as Hscan.
  destruct (_parse_element s1 i) as [val j]. cbn [snd] in Hscan.
  pose proof (read_values_cursor s1 count j) as Hk.
  specialize (IH j).
  destruct (read_values s1 count j) as [sum k]. cbn [snd] in *.
  intros H. rewrite Hscan by lia. rewrite IH by lia. reflexivity.
Qed.

Lemma removelast_cons_prefix (x : Z) (l1 l2 : list Z) :
  (exists rest, l2 = removelast l1 ++ rest) ->
  exists rest, x :: l2 = removelast (x :: l1) ++ rest.
Proof.
  intros [rest ->]. destruct l1 as [|y l1].
  - exists (x :: rest). reflexivity.
  - exists rest. reflexivity.
Qed.

(** One pass of the main loop, from a cursor inside the stream: it appends
    one package [x] and leaves the cursor at [k], further on. *)
Lemma convert_loop_pass (s : str) (i : nat) :
  (i < length s)%nat ->
  exists (x : Z) (k : nat),
    (i < k <= length s)%nat
    /\ final_result (convert_loop s i [] [])
       = x :: final_result (convert_loop s k [] [])
    /\ forall s2,
         (k < length s)%nat ->
         final_result (convert_loop (s ++ s2) i [] [])
         = x :: final_result (convert_loop (s ++ s2) k [] []).
Proof.
  intros Hi.
  destruct (nth_error s i) as [ch|] eqn:Hch.
  2:{ apply nth_error_None in Hch. lia. }
  assert (forall s2, nth_error (s ++ s2) i = Some ch) as Hch'
      by (intros s2; rewrite nth_error_app1; assumption).
  destruct (Ascii.eqb ch "_"%char) eqn:Hsent.
  { exists 0, (i + 1)%nat. split; [lia|]. split.
    - rewrite convert_loop_eq, Hch, Hsent.
      rewrite convert_loop_appends by lia. reflexivity.
    - intros s2 Hk. rewrite convert_loop_eq, Hch', Hsent.
      rewrite convert_loop_appends by (rewrite length_app; lia).
      reflexivity. }
  pose proof (parse_element_cursor s i Hi) as Hj.
  pose proof (parse_element_inside s) as Hinside.
  specialize (fun s2 => Hinside s2 i).
  destruct (_parse_element s i) as [count j] eqn:Hscan. cbn [snd] in *.
  destruct (count =? 0) eqn:Hcount.
  { exists 0, j. split; [lia|]. split.
    - rewrite convert_loop_eq, Hch, Hsent, Hscan, Hcount.
      rewrite convert_loop_appends by lia. reflexivity.
    - intros s2 Hk.
      rewrite convert_loop_eq, Hch', Hsent, (Hinside s2 Hk), Hcount.
      rewrite convert_loop_appends by (rewrite length_app; lia).
      reflexivity. }
  pose proof (read_values_cursor s (Z.to_nat (count - 0)) j) as Hk.
  pose proof (read_values_inside s) as Hreads.
  specialize (fun s2 => Hreads s2 (Z.to_nat (count - 0)) j).
  pose proof (values_loop_in_range s count 0 0 j
                ([] ++ [CountRead i count j]) ltac:(lia)) as Hrange.
  pose proof (values_loop_reads s count 0 0 j
                ([] ++ [CountRead i count j])) as Hvalues.
  destruct (read_values s (Z.to_nat (count - 0)) j) as [sum k] eqn:Hrv.
  cbn [fst snd] in *.
  exists sum, k.
  destruct (values_loop s count 0 0 j ([] ++ [CountRead i count j]))
    as [[package_sum k'] log'] eqn:Hloop.
  cbn [fst snd] in *. injection Hvalues as -> ->.
  split; [lia|]. split.
  - rewrite convert_loop_eq, Hch, Hsent, Hscan, Hcount, Hloop.
    rewrite convert_loop_appends by lia. reflexivity.
  - intros s2 Hlt.
    rewrite convert_loop_eq, Hch', Hsent, (Hinside s2 ltac:(lia)), Hcount.
    pose proof (values_loop_reads (s ++ s2) count 0 0 j
                  ([] ++ [CountRead i count j])) as Hvalues2.
    rewrite (Hreads s2 Hlt) in Hvalues2. cbn [fst snd] in Hvalues2.
    destruct (values_loop (s ++ s2) count 0 0 j
                ([] ++ [CountRead i count j]))
      as [[package_sum2 k2] log2].
    cbn [fst] in Hvalues2. injection Hvalues2 as -> ->.
    rewrite convert_loop_appends by (rewrite length_app; lia).
    reflexivity.
Qed.

Lemma convert_loop_prefix_stable (s1 s2 : str) (i : nat) :
  (i <= length s1)%nat ->
  exists rest,
    final_result (convert_loop (s1 ++ s2) i [] [])
    = removelast (final_result (convert_loop s1 i [] [])) ++ rest.
Proof.
  remember (length s1 - i)%nat as m eqn:Hm. revert i Hm.
  induction m as [m IH] using lt_wf_ind. intros i Hm Hi.
  destruct (Nat.eq_dec i (length s1)) as [->|Hne].
  { rewrite (convert_loop_eq s1).
    assert (nth_error s1 (length s1) = None) as ->
        by (apply nth_error_None; lia).
    simpl. eauto. }
  destruct (convert_loop_pass s1 i ltac:(lia)) as [x [k [Hk [H1 H2]]]].
  rewrite H1.
  destruct (Nat.eq_dec k (length s1)) as [->|Hlt].
  { rewrite (convert_loop_eq s1 (length s1)).
    assert (nth_error s1 (length s1) = None) as ->
        by (apply nth_error_None; lia).
    simpl. eauto. }
  rewrite (H2 s2) by lia.
  apply removelast_cons_prefix.
  apply (IH (length s1 - k)%nat); lia.
Qed.

(** X12. Appending to an input changes at most the last package of its
    decoding: for strings over [{a-z, _}], every package of [convert(s1)]
    but the last is also, at the same place, a package of
    [convert(s1 + s2)]. *)
Theorem convert_prefix_stable (s1 s2 : str) :
  over_alphabet s1 -> over_alphabet s2 ->
  exists rest : list Z,
    convert (s1 ++ s2) = removelast (convert s1) ++ rest.
Proof.
  intros H1 H2. unfold convert.
  rewrite (convert_run_over_alphabet s1 H1).
  rewrite (convert_run_over_alphabet _ (over_alphabet_app _ _ H1 H2)).
  apply convert_loop_prefix_stable. lia.
Qed.

Lemma convert_prefix_stable_witness :
  exists rest : list Z,
    convert (py "ab_cde" ++ py "fg_") = removelast (convert (py "ab_cde")) ++ rest.
Proof.
  exact (convert_prefix_stable (py "ab_cde") (py "fg_") eq_refl eq_refl).
Defined.

(** * The request handler [convert_measurements]

<<
    input_string = request.args.get("input", "")
    if not input_string:
        return jsonify({"error": "Input parameter is required"}), 400
    try:
        result = converter.convert(input_string)
        db_manager.store_conversion(input_string, result)
        return jsonify(result)
    except Exception as e: ...
        return jsonify({"error": "Internal server error"}), 500
>>
    The query parameters are the list of their (name, value) pairs, in the
    order of the query string.  The reply is the status with the value given
    to [jsonify]; beside it the handler's outcome keeps the arguments of its
    call to [store_conversion], if it made one.  [store_conversion] returns
    nothing and catches every exception of the database itself, and
    [convert] raises none on a [str], so the [except] branch has no part in
    the outcome. *)

(** The value given to [jsonify]. *)
Inductive body : Type :=
| ErrorBody (error : string)
| ListBody (result : list Z).

Record outcome : Type := Outcome {
  status : Z;
  reply : body;
  stored : option (str * list Z)
}.

(** [request.args.get(key, default)]: the value of the first parameter
    named [key], or [default] when there is none. *)
Fixpoint args_get (args : list (string * str)) (key : string)
    (default : str) : str :=
  match args with
  | [] => default
  | (name, value) :: rest =>
      if String.eqb name key then value else args_get rest key default
  end.

Definition convert_measurements (args : list (string * str)) : outcome :=
  let input_string := args_get args "input" [] in
  match input_string with
  | [] => Outcome 400 (ErrorBody "Input parameter is required") None
  | _ :: _ =>
      let result := convert input_string in
      Outcome 200 (ListBody result) (Some (input_string, result))
  end.

(** X11. A request whose [input] is whitespace only, but not empty, is not
    rejected as missing: it is answered 200 with the empty list, and the
    handler asks to store the input as it was received with the empty
    list. *)
Theorem convert_measurements_blank (args : list (string * str)) :
  args_get args "input" [] <> [] -> blank (args_get args "input" []) ->
  convert_measurements args
  = Outcome 200 (ListBody []) (Some (args_get args "input" [], [])).
Proof.
  intros Hne Hblank. unfold convert_measurements.
  destruct (args_get args "input" []) as [|ch rest] eqn:Hin; [congruence|].
  unfold convert. rewrite (convert_run_blank (ch :: rest) Hblank).
  reflexivity.
Qed.

Lemma convert_measurements_blank_witness :
  convert_measurements [("mode"%string, py "x"); ("input"%string, py "  ")]
  = Outcome 200 (ListBody []) (Some (py "  ", [])).
Proof.
  apply (convert_measurements_blank
           [("mode"%string, py "x"); ("input"%string, py "  ")]);
    [discriminate|reflexivity].
Defined.
